(** * MacRuby symbols: a shallow embedding of [symbol.c]

    The symbol table of MacRuby maps the content hash of a name to an
    [ID] and an [ID] to its symbol record.  This development embeds
    [rb_intern_str], [rb_id2str], [Init_PreSymbol],
    [is_special_global_name], [sym_should_be_escaped] and
    [rsym_inspect], with [rb_name2sym], [rb_sym2id], [rb_sym_to_s] and
    [rsym_all_symbols], and states the properties of the interning
    table, of the name classification and of the literal escaper. *)

From Stdlib Require Import ZArith Lia Bool List Ascii String.
From stdpp Require Import gmap list.
Import ListNotations.

Local Open Scope Z_scope.

(** ** Characters

    A string is the sequence of its UTF-16 code units ([UChar]), which
    is what [rb_str_get_uchars] hands to the code. *)

Abbreviation UChar := Z (only parsing).

Definition chr (a : ascii) : UChar := Z.of_nat (nat_of_ascii a).

Definition uchars (s : string) : list UChar := map chr (list_ascii_of_string s).

(** The double quote, written by its code. *)
Definition dquote : UChar := 34.

(** The <ctype.h> and <wctype.h> predicates, in the C locale. *)

Definition isascii (c : UChar) : bool := (0 <=? c) && (c <=? 127).

Definition isdigit (c : UChar) : bool := (chr "0" <=? c) && (c <=? chr "9").

Definition isupper (c : UChar) : bool := (chr "A" <=? c) && (c <=? chr "Z").

Definition islower (c : UChar) : bool := (chr "a" <=? c) && (c <=? chr "z").

Definition isalpha (c : UChar) : bool := isupper c || islower c.

Definition isalnum (c : UChar) : bool := isalpha c || isdigit c.

Definition isprint (c : UChar) : bool := (32 <=? c) && (c <=? 126).

Definition iswupper (c : UChar) : bool := isupper c.

(** [is_identchar], symbol.c line 44. *)
Definition is_identchar (c : UChar) : bool :=
  isalnum c || (c =? chr "_") || negb (isascii c).

(** [chars[pos]]; every read of the source is guarded by
    [pos < chars_len], the default is never observed. *)
Definition char_at (chars : list UChar) (pos : nat) : UChar := nth pos chars 0.

(** Length of the longest prefix of [l] whose characters satisfy [p]. *)
Fixpoint span_len (p : UChar -> bool) (l : list UChar) : nat :=
  match l with
  | c :: l' => if p c then S (span_len p l') else O
  | [] => O
  end.

(** [while (pos < chars_len && p(chars[pos])) pos++;] *)
Definition scan_while (p : UChar -> bool) (chars : list UChar) (pos : nat) : nat :=
  (pos + span_len p (drop pos chars))%nat.

(** ** The literal escaper *)

(** [is_special_global_name(ptr, len)], symbol.c line 321; [ptr] is the
    text after the dollar sign. *)
Definition is_special_global_name (ptr : list UChar) : bool :=
  let len := length ptr in
  if (len <=? 0)%nat then false
  else
    let c := char_at ptr 0 in
    if existsb (Z.eqb c)
         (map chr ["~"; "*"; "$"; "?"; "!"; "@"; "/"; "\"; ";"; ","; ".";
                   "="; ":"; "<"; ">"; "&"; "`"; "'"; "+"; "0"]%char
          ++ [dquote])
    then (1 =? len)%nat
    else if c =? chr "-" then
      let pos := 1%nat in
      let pos := if (pos <? len)%nat && is_identchar (char_at ptr pos)
                 then S pos else pos in
      (pos =? len)%nat
    else if negb (isdigit c) then false
    else
      (* do { pos++; } while (pos < len && isdigit(ptr[pos])); *)
      let pos := scan_while isdigit ptr 1 in
      (pos =? len)%nat.

(** How a [switch] arm of [sym_should_be_escaped] is left: through
    [goto bail] with the current value of [escape], or through [break]
    with [escape] and [pos]. *)
Inductive arm_exit :=
| Bail (escape : bool)
| Break (escape : bool) (pos : nat).

(** The code under the label [id:], symbol.c lines 503-520. *)
Definition escaped_id_tail (chars : list UChar) (pos : nat) (localid : bool) : arm_exit :=
  let chars_len := length chars in
  let c := char_at chars pos in
  if (chars_len <=? pos)%nat
     || (negb (c =? chr "_") && negb (isalpha c) && isascii c)
  then Bail true
  else
    let pos := scan_while is_identchar chars pos in
    let c := char_at chars pos in
    let pos :=
      if localid && (pos <? chars_len)%nat
         && ((c =? chr "!") || (c =? chr "?") || (c =? chr "="))
      then S pos else pos in
    Break false pos.

(** The [switch (chars[pos])] of [sym_should_be_escaped], entered with
    [pos = 0] on a non-empty text. *)
Definition escaped_switch (chars : list UChar) : arm_exit :=
  let chars_len := length chars in
  let at_ := char_at chars in
  let c := at_ 0%nat in
  if c =? 0 then Break true 0
  else if c =? chr "$" then
    let pos := 1%nat in
    if (pos <? chars_len)%nat && is_special_global_name (drop pos chars)
    then Bail false
    else escaped_id_tail chars pos false
  else if c =? chr "@" then
    let pos := 1%nat in
    let pos := if (pos <? chars_len)%nat && (at_ pos =? chr "@") then S pos else pos in
    escaped_id_tail chars pos false
  else if c =? chr "<" then
    let pos := 1%nat in
    if (pos <? chars_len)%nat then
      if at_ pos =? chr "<" then Break false (S pos)
      else if at_ pos =? chr "=" then
        let pos := S pos in
        if (pos <? chars_len)%nat && (at_ pos =? chr ">") then Break false (S pos)
        else Break false pos
      else Break false pos
    else Break false pos
  else if c =? chr ">" then
    let pos := 1%nat in
    if (pos <? chars_len)%nat
       && ((at_ pos =? chr ">") || (at_ pos =? chr "="))
    then Break false (S pos) else Break false pos
  else if c =? chr "=" then
    let pos := 1%nat in
    if (pos =? chars_len)%nat then Bail true
    else if at_ pos =? chr "~" then Break false (S pos)
    else if at_ pos =? chr "=" then
      let pos := S pos in
      if (pos <? chars_len)%nat && (at_ pos =? chr "=") then Break false (S pos)
      else Break false pos
    else Bail true
  else if c =? chr "*" then
    let pos := 1%nat in
    if (pos <? chars_len)%nat && (at_ pos =? chr "*") then Break false (S pos)
    else Break false pos
  else if (c =? chr "+") || (c =? chr "-") then
    let pos := 1%nat in
    if (pos <? chars_len)%nat && (at_ pos =? chr "@") then Break false (S pos)
    else Break false pos
  else if existsb (Z.eqb c) (map chr ["|"; "^"; "&"; "/"; "%"; "~"; "`"]%char) then
    Break false 1
  else if c =? chr "[" then
    let pos := 1%nat in
    if (pos <? chars_len)%nat && negb (at_ pos =? chr "]") then Bail true
    else
      let pos := S pos in
      if (pos <? chars_len)%nat && (at_ pos =? chr "=") then Break false (S pos)
      else Break false pos
  else if c =? chr "!" then
    let pos := 1%nat in
    if (pos =? chars_len)%nat then Bail false
    else if (at_ pos =? chr "=") || (at_ pos =? chr "~") then Break false (S pos)
    else Bail true
  else
    escaped_id_tail chars 0 (negb (isupper c)).

(** [sym_should_be_escaped], symbol.c line 357, on the text of the
    symbol. *)
Definition sym_should_be_escaped (chars : list UChar) : bool :=
  let chars_len := length chars in
  if (chars_len =? 0)%nat then true
  else if existsb (fun c => negb (isprint c)) chars then true
  else
    match escaped_switch chars with
    | Bail escape => escape
    | Break escape pos => if (pos <? chars_len)%nat then true else escape
    end.

Section Inspect.

(** [rb_str_inspect], the string-literal printer of string.c, is not
    part of symbol.c. *)
Variable rb_str_inspect : list UChar -> list UChar.

(** [rsym_inspect], symbol.c line 535. *)
Definition rsym_inspect (str : list UChar) : list UChar :=
  let out := uchars ":" in
  if sym_should_be_escaped str then out ++ rb_str_inspect str
  else out ++ str.

End Inspect.

(** ** Symbol identifiers

    An [ID] is an [unsigned long]: the scope tag in the low
    [ID_SCOPE_SHIFT] bits, the sequence number above them.  IDs are
    integers of [Z] here; the counter [last_id] is a [long] and would
    need more than 2^60 registrations to reach the sign bit, which is
    out of the model. *)

Abbreviation ID := Z (only parsing).

(** What symbol.c takes from headers that are not part of it: the
    layout constants of an [ID] and the scope tags (id.h), the last
    parser token [tLAST_TOKEN] and the operator table [rb_op_tbl]
    (parse.y), and the content hash [rb_str_hash] (string.c).  The
    operator table is the list of the entries of the array, in order. *)
Class SymbolParams := {
  ID_SCOPE_SHIFT : Z;
  ID_SCOPE_MASK : Z;
  ID_LOCAL : ID;
  ID_INSTANCE : ID;
  ID_GLOBAL : ID;
  ID_ATTRSET : ID;
  ID_CONST : ID;
  ID_CLASS : ID;
  ID_JUNK : ID;
  tLAST_TOKEN : ID;
  rb_op_tbl : list (ID * list UChar);
  rb_str_hash : list UChar -> Z
}.

(** [rb_sym_t], symbol.c line 24; the field [klass] is always
    [rb_cSymbol] and is left out. *)
Record rb_sym_t := { rsym_str : list UChar; rsym_id : ID }.

(** The three globals of symbol.c, line 21. *)
Record table := {
  sym_id : gmap Z ID;
  id_str : gmap Z rb_sym_t;
  last_id : Z
}.

(** [CFDictionaryGetValue] on [sym_id]: the stored value, or 0 (NULL)
    when the key is absent. *)
Definition CFDictionaryGetValue (d : gmap Z ID) (key : Z) : ID :=
  default 0 (d !! key).

(** Modelled from the spec: [rb_str_substr] is a function of the
    string library, not of symbol.c; it answers the [len] characters of
    [str] from the position [beg]. *)
Definition rb_str_substr (str : list UChar) (beg len : nat) : list UChar :=
  take len (drop beg str).

(** How the [switch] of [rb_intern_str] is left. *)
Inductive intern_arm :=
| GotoNewId (id : ID)
| GotoRegister (id : ID)
| BreakAt (pos : nat) (id : ID).

Section Interning.

Context {P : SymbolParams}.

(** Modelled from the spec: [is_notop_id] is declared in a header that
    is not part of symbol.c.  The operator tokens are the reserved IDs,
    which end at [tLAST_TOKEN]; every other ID is above them. *)
Definition is_notop_id (id : ID) : bool := tLAST_TOKEN <? id.

(** Modelled from the spec: [is_local_id] is declared in a header that
    is not part of symbol.c.  An ID is its scope tag in the low-order
    bits and its sequence number above them; an ID is Local when it is
    no operator token and its scope tag is Local. *)
Definition is_local_id (id : ID) : bool :=
  is_notop_id id && (Z.land id ID_SCOPE_MASK =? ID_LOCAL).

(** Modelled from the spec: [is_attrset_id] is declared in a header
    that is not part of symbol.c.  An ID is an AttributeSetter when it
    is no operator token and its scope tag is AttributeSetter. *)
Definition is_attrset_id (id : ID) : bool :=
  is_notop_id id && (Z.land id ID_SCOPE_MASK =? ID_ATTRSET).

(** Modelled from the spec: [rb_id_attrset] is declared in a header
    that is not part of symbol.c.  The setter of a name is an
    AttributeSetter on the sequence number of the name: the scope
    field is replaced, as [rb_id2str] undoes it at line 142. *)
Definition rb_id_attrset (id : ID) : ID :=
  Z.lor (Z.land id (Z.lnot ID_SCOPE_MASK)) ID_ATTRSET.

(** symbol.c lines 105-114: the identifier scan after the [switch]. *)
Definition scan_junk (chars : list UChar) (pos : nat) (id : ID) : ID :=
  let chars_len := length chars in
  let pos :=
    if (pos <? chars_len)%nat && negb (isdigit (char_at chars pos))
    then scan_while is_identchar chars pos else pos in
  if (pos <? chars_len)%nat then ID_JUNK else id.

(** The label [id_register:], lines 119-128. *)
Definition id_register (st : table) (str : list UChar) (id : ID) : ID * table :=
  let sym := {| rsym_str := str; rsym_id := id |} in
  (id, {| sym_id := <[rb_str_hash str := id]> (sym_id st);
          id_str := <[id := sym]> (id_str st);
          last_id := last_id st |}).

(** The label [new_id:], line 116: [id |= ++last_id << ID_SCOPE_SHIFT],
    falling through to [id_register]. *)
Definition new_id (st : table) (str : list UChar) (id : ID) : ID * table :=
  let last := last_id st + 1 in
  let st := {| sym_id := sym_id st; id_str := id_str st; last_id := last |} in
  id_register st str (Z.lor id (Z.shiftl last ID_SCOPE_SHIFT)).

(** The body of [rb_intern_str], symbol.c line 50, over the function
    [self] of its recursive call. *)
Definition rb_intern_body
    (self : table -> list UChar -> option (ID * table))
    (st : table) (str : list UChar) : option (ID * table) :=
  let name_hash := rb_str_hash str in
  let id := CFDictionaryGetValue (sym_id st) name_hash in
  if negb (id =? 0) then Some (id, st)
  else
    let chars := str in
    let chars_len := length chars in
    let arm : option (intern_arm * table) :=
      if (0 <? chars_len)%nat then
        let c := char_at chars 0 in
        if c =? chr "$" then Some (GotoNewId ID_GLOBAL, st)
        else if c =? chr "@" then
          if (1 <? chars_len)%nat && (char_at chars 1 =? chr "@")
          then Some (BreakAt 2 ID_CLASS, st)
          else Some (BreakAt 1 ID_INSTANCE, st)
        else if (1 <? chars_len)%nat
                && (char_at chars (chars_len - 1) =? chr "=") then
          match self st (rb_str_substr str 0 (chars_len - 1)) with
          | None => None
          | Some (id, st1) =>
            if negb (is_attrset_id id)
            then Some (GotoRegister (rb_id_attrset id), st1)
            else Some (BreakAt 0 ID_ATTRSET, st1)
          end
        else if iswupper c then Some (BreakAt 0 ID_CONST, st)
        else Some (BreakAt 0 ID_LOCAL, st)
      else Some (BreakAt 0 id, st) in
    match arm with
    | None => None
    | Some (GotoNewId id, st1) => Some (new_id st1 str id)
    | Some (GotoRegister id, st1) => Some (id_register st1 str id)
    | Some (BreakAt pos id, st1) => Some (new_id st1 str (scan_junk chars pos id))
    end.

(** [rb_intern_str] with a bound on the depth of the recursive
    calls; [None] is the exhausted fuel.  The recursive call is on
    the name without its last character. *)
Fixpoint rb_intern_fuel (fuel : nat) (st : table) (str : list UChar)
  : option (ID * table) :=
  match fuel with
  | O => rb_intern_body (fun _ _ => None) st str
  | S fuel' => rb_intern_body (rb_intern_fuel fuel') st str
  end.

Definition rb_intern_str (st : table) (str : list UChar) : option (ID * table) :=
  rb_intern_fuel (length str) st str.

(** The [while] loop of [rb_id2str], lines 144-150, over the lookup
    [rec] of the recursive call; [n] bounds the iterations. *)
Fixpoint id2str_loop (rec : table -> ID -> option (option rb_sym_t * table))
    (n : nat) (st : table) (id id2 : ID)
  : option (option rb_sym_t * table) :=
  match n with
  | O => None
  | S n' =>
    match rec st id2 with
    | None => None
    | Some (Some sym, st1) => Some (Some sym, st1)
    | Some (None, st1) =>
      if negb (is_local_id id2) then Some (None, st1)
      else id2str_loop rec n' st1 id
             (Z.lor (Z.land id (Z.lnot ID_SCOPE_MASK)) ID_CONST)
    end
  end.

(** Lines 152-164 of [rb_id2str]: the setter name of the base record
    [sym] is interned and [id] is looked up once more. *)
Definition id2str_derive (st : table) (id : ID) (sym : rb_sym_t)
  : option (option rb_sym_t * table) :=
  let str := rsym_str sym ++ [chr "="] in
  match rb_intern_str st str with
  | None => None
  | Some (_, st2) =>
    match id_str st2 !! id with
    | Some sym' => Some (Some sym', st2)
    | None => Some (None, st2)
    end
  end.

(** [rb_id2str], symbol.c line 131: [Some sym] is the record, [None]
    the value 0.  [fuel] bounds the depth of the recursive calls. *)
Fixpoint rb_id2str_fuel (fuel : nat) (st : table) (id : ID)
  : option (option rb_sym_t * table) :=
  match id_str st !! id with
  | Some sym => Some (Some sym, st)
  | None =>
    if is_attrset_id id then
      match fuel with
      | O => None
      | S fuel' =>
        let id2 := Z.lor (Z.land id (Z.lnot ID_SCOPE_MASK)) ID_LOCAL in
        match id2str_loop (rb_id2str_fuel fuel') 2 st id id2 with
        | None => None
        | Some (None, st1) => Some (None, st1)
        | Some (Some sym, st1) => id2str_derive st1 id sym
        end
      end
    else Some (None, st)
  end.

Definition rb_id2str (st : table) (id : ID) : option (option rb_sym_t * table) :=
  rb_id2str_fuel 1 st id.

(** The loop of [Init_PreSymbol], lines 250-260, which stops at the
    entry whose token is 0. *)
Fixpoint preregister (tbl : list (ID * list UChar)) (st : table) : table :=
  match tbl with
  | [] => st
  | (token, name) :: rest =>
    if token =? 0 then st
    else preregister rest (snd (id_register st name token))
  end.

(** [Init_PreSymbol], symbol.c line 242. *)
Definition Init_PreSymbol : table :=
  preregister rb_op_tbl {| sym_id := ∅; id_str := ∅; last_id := 1000 |}.

(** [rb_name2sym], line 192, on the name. *)
Definition rb_name2sym (st : table) (name : list UChar)
  : option (option rb_sym_t * table) :=
  match rb_intern_str st name with
  | None => None
  | Some (id, st1) => rb_id2str st1 id
  end.

End Interning.

(** ** Notions used by the statements *)

Section Notions.

Context {P : SymbolParams}.

(** The two fields of an ID. *)
Definition scope_of (id : ID) : Z := Z.land id ID_SCOPE_MASK.

Definition seq_of (id : ID) : Z := Z.shiftr id ID_SCOPE_SHIFT.

(** [(id & ~ID_SCOPE_MASK) | tag], the ID of [rb_id2str] with the
    scope tag replaced. *)
Definition with_scope (id : ID) (tag : Z) : ID :=
  Z.lor (Z.land id (Z.lnot ID_SCOPE_MASK)) tag.

(** The text that [rb_id2str] answers, if any. *)
Definition id2str_text (st : table) (id : ID) : option (option (list UChar)) :=
  match rb_id2str st id with
  | None => None
  | Some (r, _) => Some (rsym_str <$> r)
  end.

(** The text of [rb_id2str (rb_intern_str name)]. *)
Definition intern_text (st : table) (name : list UChar)
  : option (option (list UChar)) :=
  match rb_intern_str st name with
  | None => None
  | Some (id, st1) => id2str_text st1 id
  end.

(** The ID of a name alone. *)
Definition intern_id (st : table) (name : list UChar) : option ID :=
  fst <$> rb_intern_str st name.

(** A name is new in a table when the lookup of line 54 answers 0. *)
Definition fresh (st : table) (name : list UChar) : Prop :=
  CFDictionaryGetValue (sym_id st) (rb_str_hash name) = 0.

(** The words of the specification on the scan: the remainder of a
    name after its prefix is junk when it holds a character that is
    not an identifier character or when it begins with a digit. *)
Definition remainder_is_junk (rest : list UChar) : bool :=
  existsb (fun c => negb (is_identchar c)) rest
  || match rest with c :: _ => isdigit c | [] => false end.

(** The shape of the attribute branch of [rb_intern_str], line 86: at
    least two characters, the last one an equal sign, the first one
    neither a dollar sign nor an at sign. *)
Definition attr_shape (name : list UChar) : bool :=
  (1 <? length name)%nat
  && (char_at name (length name - 1) =? chr "=")
  && negb (char_at name 0 =? chr "$")
  && negb (char_at name 0 =? chr "@").

(** The scope tag that the arms of the [switch] without a recursive
    call compute, together with the scan: lines 66-114 on a name that
    does not have the shape above. *)
Definition plain_tag (name : list UChar) : ID :=
  match name with
  | [] => scan_junk name 0 0
  | c :: _ =>
    if c =? chr "$" then ID_GLOBAL
    else if c =? chr "@" then
      if (1 <? length name)%nat && (char_at name 1 =? chr "@")
      then scan_junk name 2 ID_CLASS
      else scan_junk name 1 ID_INSTANCE
    else if iswupper c then scan_junk name 0 ID_CONST
    else scan_junk name 0 ID_LOCAL
  end.

(** The classifier as a function of the text alone: the tag of the
    arms without a recursive call and, for a name of the attribute
    branch, the tag of an attribute setter, or Junk when the base is an
    attribute setter itself.  [fuel] bounds the recursion on the base
    and [None] is the exhausted fuel. *)
Fixpoint classify_fuel (fuel : nat) (name : list UChar) : option ID :=
  if attr_shape name then
    match fuel with
    | O => None
    | S fuel' =>
      match classify_fuel fuel' (rb_str_substr name 0 (length name - 1)) with
      | None => None
      | Some t => Some (if t =? ID_ATTRSET then ID_JUNK else ID_ATTRSET)
      end
    end
  else Some (plain_tag name).

Definition classify (name : list UChar) : option ID :=
  classify_fuel (length name) name.

(** The admissible parameters: the scope mask covers the low
    [ID_SCOPE_SHIFT] bits, the seven scope tags are distinct values of
    that field, the tag of an attribute setter is not 0, and the
    operator tokens end below the floor 1000 of the counter. *)
Class SymbolParamsOK : Prop := {
  shift_nonneg : 0 <= ID_SCOPE_SHIFT;
  mask_ones : ID_SCOPE_MASK = Z.ones ID_SCOPE_SHIFT;
  tags_range :
    Forall (fun t => 0 <= t <= ID_SCOPE_MASK)
      [ID_LOCAL; ID_INSTANCE; ID_GLOBAL; ID_ATTRSET; ID_CONST; ID_CLASS; ID_JUNK];
  tags_distinct :
    NoDup [ID_LOCAL; ID_INSTANCE; ID_GLOBAL; ID_ATTRSET; ID_CONST; ID_CLASS; ID_JUNK];
  attrset_nonzero : ID_ATTRSET <> 0;
  last_token_range : 0 <= tLAST_TOKEN < 1000
}.

(** The names in use.  [D] is a set of names on which the content
    hash has no collision; it holds the operator names and the base
    of each of its names that ends in an equal sign, and it holds no
    operator name followed by an equal sign, unless that is an
    operator name too.  The operator table has positive tokens up to
    [tLAST_TOKEN], each token and each name once. *)
Record universe (D : list UChar -> Prop) : Prop := {
  u_hash_inj : forall s1 s2,
    D s1 -> D s2 -> rb_str_hash s1 = rb_str_hash s2 -> s1 = s2;
  u_base : forall p, D (p ++ [chr "="]) -> D p;
  u_ops : forall t n, In (t, n) rb_op_tbl -> D n;
  u_op_setter : forall t n,
    In (t, n) rb_op_tbl -> D (n ++ [chr "="]) ->
    exists t', In (t', n ++ [chr "="]) rb_op_tbl;
  u_tokens : Forall (fun e => 0 < fst e <= tLAST_TOKEN) rb_op_tbl;
  u_tokens_once : NoDup (map fst rb_op_tbl);
  u_names_once : NoDup (map snd rb_op_tbl)
}.

(** A call of [rb_id2str] may intern the setter name of a record
    with the sequence number of [id]; these names are in [D]. *)
Definition setters_in (D : list UChar -> Prop) (st : table) (id : ID) : Prop :=
  forall tag sym, id_str st !! with_scope id tag = Some sym ->
    D (rsym_str sym ++ [chr "="]).

(** One call of the interface on a name of [D]. *)
Inductive step (D : list UChar -> Prop) : table -> table -> Prop :=
| step_intern st name id st' :
    D name -> rb_intern_str st name = Some (id, st') -> step D st st'
| step_id2str st id r st' :
    setters_in D st id -> rb_id2str st id = Some (r, st') -> step D st st'.

(** The tables that the program reaches after [Init_PreSymbol]. *)
Definition reachable (D : list UChar -> Prop) (st : table) : Prop :=
  rtc (step D) Init_PreSymbol st.

(** The consistency of the two dictionaries. *)
Record table_inv (D : list UChar -> Prop) (st : table) : Prop := {
  inv_hash : forall h id, sym_id st !! h = Some id ->
    id <> 0 /\ exists s, D s /\ rb_str_hash s = h
      /\ id_str st !! id = Some {| rsym_str := s; rsym_id := id |};
  inv_rec : forall id sym, id_str st !! id = Some sym ->
    rsym_id sym = id /\ D (rsym_str sym)
    /\ sym_id st !! rb_str_hash (rsym_str sym) = Some id;
  inv_last : 1000 <= last_id st;
  inv_seq : forall id sym, id_str st !! id = Some sym ->
    0 < id /\ seq_of id <= last_id st;
  inv_op : forall id sym, id_str st !! id = Some sym ->
    id <= tLAST_TOKEN -> In (id, rsym_str sym) rb_op_tbl;
  inv_dyn : forall id sym, id_str st !! id = Some sym ->
    tLAST_TOKEN < id -> 1000 < seq_of id;
  inv_ops : forall t n, In (t, n) rb_op_tbl ->
    sym_id st !! rb_str_hash n = Some t;
  inv_attr : forall id sym, id_str st !! id = Some sym ->
    is_attrset_id id = true ->
    exists b p, rsym_str sym = p ++ [chr "="]
      /\ id_str st !! b = Some {| rsym_str := p; rsym_id := b |}
      /\ tLAST_TOKEN < b /\ scope_of b <> ID_ATTRSET
      /\ rb_id_attrset b = id;
  inv_uniq : forall id1 id2 sym1 sym2,
    id_str st !! id1 = Some sym1 -> id_str st !! id2 = Some sym2 ->
    tLAST_TOKEN < id1 -> tLAST_TOKEN < id2 ->
    scope_of id1 <> ID_ATTRSET -> scope_of id2 <> ID_ATTRSET ->
    seq_of id1 = seq_of id2 -> id1 = id2;
  inv_head : forall id c rest,
    id_str st !! id = Some {| rsym_str := c :: rest; rsym_id := id |} ->
    tLAST_TOKEN < id ->
    scope_of id = ID_LOCAL \/ scope_of id = ID_CONST ->
    c <> chr "$" /\ c <> chr "@";
  inv_class : forall id sym, id_str st !! id = Some sym ->
    tLAST_TOKEN < id -> classify (rsym_str sym) = Some (scope_of id)
}.

(** The names whose ID has a scope: a name without an entry, in any
    table, and a name of [D] that is no operator name, in a table that
    the program reaches. *)
Definition classifiable (D : list UChar -> Prop) (st : table)
    (name : list UChar) : Prop :=
  fresh st name
  \/ (reachable D st /\ D name /\ forall t, ~ In (t, name) rb_op_tbl).

(** What a call on [name] may change: entries and records stay, the
    counter does not decrease, and a new entry of [sym_id] is under
    the hash of a name of [D] that is not longer than [name]. *)
Record grows (D : list UChar -> Prop) (name : list UChar) (st st' : table)
  : Prop := {
  g_hash : forall h id, sym_id st !! h = Some id -> sym_id st' !! h = Some id;
  g_rec : forall id sym, id_str st !! id = Some sym -> id_str st' !! id = Some sym;
  g_last : last_id st <= last_id st';
  g_frame : forall h id, sym_id st' !! h = Some id ->
    sym_id st !! h = Some id
    \/ exists q, D q /\ (length q <= length name)%nat /\ h = rb_str_hash q
}.

End Notions.

(** ** The string-literal printer

    [rb_str_inspect] is a collaborator of [rsym_inspect].  On a text
    of printable characters without a double quote, a backslash or a
    number sign it answers the text between double quotes, and
    [plain_text] is that condition. *)

Definition plain_text (str : list UChar) : bool :=
  forallb (fun c => isprint c && negb (c =? dquote) && negb (c =? chr "\")
                    && negb (c =? chr "#")) str.

(** A printer for plain texts. *)
Definition quote_text (str : list UChar) : list UChar :=
  dquote :: str ++ [dquote].

(** ** Concrete parameters

    The layout of Ruby 1.9 (three tag bits; Local 0, Instance 1,
    Global 3, AttributeSetter 4, Constant 5, Class 6, Junk 7), over an
    operator table and a hash given later. *)

Definition ruby_params (last_token : ID) (tbl : list (ID * list UChar))
    (hash : list UChar -> Z) : SymbolParams :=
  {| ID_SCOPE_SHIFT := 3; ID_SCOPE_MASK := 7;
     ID_LOCAL := 0; ID_INSTANCE := 1; ID_GLOBAL := 3; ID_ATTRSET := 4;
     ID_CONST := 5; ID_CLASS := 6; ID_JUNK := 7;
     tLAST_TOKEN := last_token;
     rb_op_tbl := tbl; rb_str_hash := hash |}.

(** A hash without collisions on 16-bit code units: the name read as a
    numeral of base 65537. *)
Definition numeral_hash (str : list UChar) : Z :=
  fold_left (fun h c => h * 65537 + (c + 1)) str 0.

(** A hash with collisions: the multiplicative hash with factor 31,
    seeded with the length of the name.  The one-character name of
    code unit 4995 and the name [aa] have the hash 5026, the name of
    code unit 3235 and the name of the operator [**] the hash 3266, the
    name of code unit 4959 and the name [a=] the hash 4990. *)
Definition seeded_hash (str : list UChar) : Z :=
  fold_left (fun h c => h * 31 + c) str (Z.of_nat (length str)).

(** Single-character operators, whose token is the character code as
    in a yacc grammar. *)
Definition char_ops : list (ID * list UChar) :=
  [(chr "+", uchars "+"); (chr "*", uchars "*");
   (chr "|", uchars "|"); (chr "~", uchars "~")].

(** No operator, no collision. *)
Definition plain_params : SymbolParams := ruby_params 999 [] numeral_hash.

(** Four operators, no collision. *)
Definition ops_params : SymbolParams := ruby_params 999 char_ops numeral_hash.

(** The operator [**] under a token number of the parser, colliding
    hash. *)
Definition seeded_params : SymbolParams :=
  ruby_params 999 [(321, uchars "**")] seeded_hash.

(** Interning a list of names in order, from [st]. *)
Fixpoint intern_all {P : SymbolParams} (st : table) (names : list (list UChar))
  : option table :=
  match names with
  | [] => Some st
  | name :: rest =>
    match rb_intern_str st name with
    | None => None
    | Some (_, st1) => intern_all st1 rest
    end
  end.

(** The table after [Init_PreSymbol] and the interning of [names]. *)
Definition table_after {P : SymbolParams} (names : list (list UChar))
  : option table :=
  intern_all Init_PreSymbol names.

(** The ID and the text that a name gets in that table. *)
Definition id_after {P : SymbolParams} (names : list (list UChar))
    (name : list UChar) : option ID :=
  match table_after names with
  | Some st => intern_id st name
  | None => None
  end.

Definition text_after {P : SymbolParams} (names : list (list UChar))
    (name : list UChar) : option (option (list UChar)) :=
  match table_after names with
  | Some st => intern_text st name
  | None => None
  end.

(** The text that [rb_id2str] answers for an ID in that table. *)
Definition resolve_after {P : SymbolParams} (names : list (list UChar))
    (id : ID) : option (option (list UChar)) :=
  match table_after names with
  | Some st => id2str_text st id
  | None => None
  end.

(** A set of names in use: the four operators, identifiers of each
    category, a setter and a name that is no identifier. *)
Definition sample_names : list (list UChar) :=
  map uchars ["+"; "*"; "|"; "~"; "foo"; "foo="; "Bar"; "Bar="; "@iv"; "$g"; "a b"]%string.

Definition in_sample (name : list UChar) : Prop := In name sample_names.

(** The table of the four operators after the name [foo] has been
    interned. *)
Definition sample_table : table :=
  match @table_after ops_params [uchars "foo"] with
  | Some st => st
  | None => @Init_PreSymbol ops_params
  end.

(** ** The other functions of symbol.c *)

(** [rb_sym2id], symbol.c line 186: the ID that the record holds. *)
Definition rb_sym2id (sym : rb_sym_t) : ID := rsym_id sym.

(** [rb_sym_to_s], line 198: a copy of the text of the record, which
    [rsym_to_s] (line 575) answers to [to_s] and [id2name]. *)
Definition rb_sym_to_s (sym : rb_sym_t) : list UChar := rsym_str sym.

(** [rsym_all_symbols], line 226: the values of [id_str], pushed on a
    new array one after the other; the count of a dictionary is never
    negative, so the test of line 231 passes.  [CFDictionaryGetKeysAndValues]
    hands the values out in an order that is not specified; the list
    here has them in the order of the keys, and the statements are on
    the elements alone. *)
Definition rsym_all_symbols (st : table) : list rb_sym_t :=
  snd <$> map_to_list (id_str st).

(** The record that [Init_PreSymbol] allocates for an entry of the
    operator table, line 253. *)
Definition op_symbol (e : ID * list UChar) : rb_sym_t :=
  {| rsym_str := snd e; rsym_id := fst e |}.


(** ** Notions used by the statements on the escaper *)

(** The first character that the code under the label [id:] accepts,
    line 504: an underscore, a letter, or a character that is not
    ASCII. *)
Definition ident_start (c : UChar) : bool :=
  (c =? chr "_") || isalpha c || negb (isascii c).

(** An identifier: such a first character, then identifier
    characters. *)
Definition is_identifier (l : list UChar) : bool :=
  match l with
  | c :: rest => ident_start c && forallb is_identchar rest
  | [] => false
  end.

(** What an identifier scan leaves: the text after the longest prefix
    of identifier characters. *)
Definition after_ident (r : list UChar) : list UChar :=
  drop (span_len is_identchar r) r.

(** The first characters with an arm of their own in the [switch] of
    [sym_should_be_escaped], lines 389-483. *)
Definition switch_heads : list UChar :=
  map chr ["$"; "@"; "<"; ">"; "="; "*"; "+"; "-"; "|"; "^"; "&"; "/"; "%";
           "~"; "`"; "["; "!"]%char.

(** The first characters of the operator arms, the bracket apart. *)
Definition operator_heads : list UChar :=
  map chr ["<"; ">"; "="; "*"; "+"; "-"; "|"; "^"; "&"; "/"; "%"; "~"; "`";
           "!"]%char.

(** The operator texts that are printed as they are. *)
Definition bare_operators : list (list UChar) :=
  map uchars ["<"; "<<"; "<="; "<=>"; ">"; ">>"; ">="; "=~"; "=="; "===";
              "*"; "**"; "+"; "+@"; "-"; "-@"; "|"; "^"; "&"; "/"; "%";
              "~"; "`"; "!"; "!="; "!~"]%string.

(** The one-character suffixes of a method name. *)
Definition method_suffixes : list (list UChar) :=
  map uchars ["!"; "?"; "="]%string.

(** The characters of the first arm of [is_special_global_name],
    lines 330-333. *)
Definition special_punct : list UChar :=
  map chr ["~"; "*"; "$"; "?"; "!"; "@"; "/"; "\"; ";"; ","; ".";
           "="; ":"; "<"; ">"; "&"; "`"; "'"; "+"; "0"]%char
  ++ [dquote].


(** ** The scope tags *)

Section Tags.

Context {P : SymbolParams} {OK : SymbolParamsOK}.

Lemma tags_bounds :
  (0 <= ID_LOCAL <= ID_SCOPE_MASK) /\ (0 <= ID_INSTANCE <= ID_SCOPE_MASK)
  /\ (0 <= ID_GLOBAL <= ID_SCOPE_MASK) /\ (0 <= ID_ATTRSET <= ID_SCOPE_MASK)
  /\ (0 <= ID_CONST <= ID_SCOPE_MASK) /\ (0 <= ID_CLASS <= ID_SCOPE_MASK)
  /\ (0 <= ID_JUNK <= ID_SCOPE_MASK).
Proof.
  pose proof tags_range as H. rewrite !Forall_cons in H. tauto.
Qed.

Lemma tags_ne :
  ID_LOCAL <> ID_INSTANCE /\ ID_LOCAL <> ID_GLOBAL /\ ID_LOCAL <> ID_ATTRSET
  /\ ID_LOCAL <> ID_CONST /\ ID_LOCAL <> ID_CLASS /\ ID_LOCAL <> ID_JUNK
  /\ ID_INSTANCE <> ID_GLOBAL /\ ID_INSTANCE <> ID_ATTRSET
  /\ ID_INSTANCE <> ID_CONST /\ ID_INSTANCE <> ID_CLASS
  /\ ID_INSTANCE <> ID_JUNK
  /\ ID_GLOBAL <> ID_ATTRSET /\ ID_GLOBAL <> ID_CONST /\ ID_GLOBAL <> ID_CLASS
  /\ ID_GLOBAL <> ID_JUNK
  /\ ID_ATTRSET <> ID_CONST /\ ID_ATTRSET <> ID_CLASS /\ ID_ATTRSET <> ID_JUNK
  /\ ID_CONST <> ID_CLASS /\ ID_CONST <> ID_JUNK /\ ID_CLASS <> ID_JUNK.
Proof.
  pose proof tags_distinct as H.
  rewrite !NoDup_cons, !not_elem_of_cons in H. tauto.
Qed.

Lemma mask_nonneg : 0 <= ID_SCOPE_MASK.
Proof. pose proof tags_bounds. lia. Qed.

End Tags.

Ltac tag_bounds :=
  pose proof tags_bounds as (? & ? & ? & ? & ? & ? & ?).

Ltac tag_facts :=
  pose proof tags_ne
    as (? & ? & ? & ? & ? & ? & ? & ? & ? & ? & ? & ? & ? & ? & ? & ? & ? & ?
        & ? & ? & ?);
  pose proof attrset_nonzero.

(** ** Arithmetic of the two fields *)

Section Fields.

Context {P : SymbolParams} {OK : SymbolParamsOK}.

Lemma pow_shift_pos : 0 < 2 ^ ID_SCOPE_SHIFT.
Proof. apply Z.pow_pos_nonneg; [lia | apply shift_nonneg]. Qed.

Lemma scope_of_mod id : scope_of id = id mod 2 ^ ID_SCOPE_SHIFT.
Proof.
  unfold scope_of. rewrite mask_ones. apply Z.land_ones, shift_nonneg.
Qed.

Lemma seq_of_div id : seq_of id = id / 2 ^ ID_SCOPE_SHIFT.
Proof. unfold seq_of. apply Z.shiftr_div_pow2, shift_nonneg. Qed.

Lemma fields_eq id : id = 2 ^ ID_SCOPE_SHIFT * seq_of id + scope_of id.
Proof.
  rewrite scope_of_mod, seq_of_div. apply Z.div_mod.
  pose proof pow_shift_pos. lia.
Qed.

Lemma fields_inj id1 id2 :
  seq_of id1 = seq_of id2 -> scope_of id1 = scope_of id2 -> id1 = id2.
Proof.
  intros Hs Ht. rewrite (fields_eq id1), (fields_eq id2). congruence.
Qed.

Lemma tag_in_range t : 0 <= t <= ID_SCOPE_MASK -> 0 <= t < 2 ^ ID_SCOPE_SHIFT.
Proof.
  rewrite mask_ones, Z.ones_equiv. lia.
Qed.

Lemma small_testbit t k i :
  0 <= t < 2 ^ k -> 0 <= k <= i -> Z.testbit t i = false.
Proof.
  intros Ht Hi. apply Z.testbit_false; [lia |].
  rewrite Z.div_small; [reflexivity |].
  split; [lia |]. apply Z.lt_le_trans with (2 ^ k); [lia |].
  apply Z.pow_le_mono_r; lia.
Qed.

(** The low bits of [n << ID_SCOPE_SHIFT] are 0 and a tag has no
    high bit. *)
Lemma lor_shiftl_fields t n :
  0 <= t <= ID_SCOPE_MASK ->
  Z.lor t (Z.shiftl n ID_SCOPE_SHIFT) = 2 ^ ID_SCOPE_SHIFT * n + t.
Proof.
  intros Ht. pose proof shift_nonneg as Hk.
  apply tag_in_range in Ht.
  rewrite Z.shiftl_mul_pow2 by exact Hk.
  assert (Hdisj : Z.land (n * 2 ^ ID_SCOPE_SHIFT) t = 0).
  { apply Z.bits_inj'. intros i Hi. rewrite Z.land_spec, Z.bits_0.
    destruct (Z.lt_ge_cases i ID_SCOPE_SHIFT) as [Hlt | Hge].
    - rewrite Z.mul_pow2_bits_low by lia. reflexivity.
    - rewrite (small_testbit t ID_SCOPE_SHIFT i) by lia.
      apply andb_false_r. }
  rewrite Z.lor_comm, <- Z.lxor_lor by exact Hdisj.
  rewrite <- Z.add_nocarry_lxor by exact Hdisj. lia.
Qed.

Lemma seq_of_new t n :
  0 <= t <= ID_SCOPE_MASK -> seq_of (Z.lor t (Z.shiftl n ID_SCOPE_SHIFT)) = n.
Proof.
  intros Ht. rewrite seq_of_div, lor_shiftl_fields by exact Ht.
  apply tag_in_range in Ht. pose proof pow_shift_pos.
  rewrite Z.mul_comm, Z.div_add_l by lia.
  rewrite Z.div_small by lia. lia.
Qed.

Lemma scope_of_new t n :
  0 <= t <= ID_SCOPE_MASK -> scope_of (Z.lor t (Z.shiftl n ID_SCOPE_SHIFT)) = t.
Proof.
  intros Ht. rewrite scope_of_mod, lor_shiftl_fields by exact Ht.
  apply tag_in_range in Ht. pose proof pow_shift_pos.
  rewrite Z.add_comm, Z.mul_comm, Z.mod_add by lia.
  apply Z.mod_small. lia.
Qed.

Lemma land_lnot_mask id :
  Z.land id (Z.lnot ID_SCOPE_MASK) = Z.shiftl (seq_of id) ID_SCOPE_SHIFT.
Proof.
  pose proof shift_nonneg as Hk. unfold seq_of. rewrite mask_ones.
  apply Z.bits_inj'. intros i Hi.
  rewrite Z.land_spec, Z.lnot_spec by lia.
  destruct (Z.lt_ge_cases i ID_SCOPE_SHIFT) as [Hlt | Hge].
  - rewrite Z.ones_spec_low, Z.shiftl_spec_low by lia. apply andb_false_r.
  - rewrite Z.ones_spec_high, Z.shiftl_spec, Z.shiftr_spec by lia.
    rewrite andb_true_r. f_equal. lia.
Qed.

Lemma with_scope_eq id t :
  with_scope id t = Z.lor t (Z.shiftl (seq_of id) ID_SCOPE_SHIFT).
Proof. unfold with_scope. rewrite land_lnot_mask. apply Z.lor_comm. Qed.

Lemma seq_of_with_scope id t :
  0 <= t <= ID_SCOPE_MASK -> seq_of (with_scope id t) = seq_of id.
Proof. intros. rewrite with_scope_eq. now apply seq_of_new. Qed.

Lemma scope_of_with_scope id t :
  0 <= t <= ID_SCOPE_MASK -> scope_of (with_scope id t) = t.
Proof. intros. rewrite with_scope_eq. now apply scope_of_new. Qed.

Lemma with_scope_self id : with_scope id (scope_of id) = id.
Proof.
  assert (Hr : 0 <= scope_of id <= ID_SCOPE_MASK).
  { rewrite scope_of_mod, mask_ones, Z.ones_equiv.
    pose proof (Z.mod_pos_bound id _ pow_shift_pos). lia. }
  apply fields_inj.
  - now apply seq_of_with_scope.
  - now apply scope_of_with_scope.
Qed.

Lemma with_scope_same_seq id1 id2 t :
  seq_of id1 = seq_of id2 -> with_scope id1 t = with_scope id2 t.
Proof. intros H. rewrite !with_scope_eq, H. reflexivity. Qed.

Lemma seq_gt_floor id : 1000 < seq_of id -> tLAST_TOKEN < id.
Proof.
  intros H. pose proof last_token_range. pose proof pow_shift_pos.
  assert (Hr : 0 <= scope_of id).
  { rewrite scope_of_mod. apply Z.mod_pos_bound. lia. }
  rewrite (fields_eq id). nia.
Qed.


End Fields.

(** ** The scan *)

Section Scan.

Context {P : SymbolParams}.


Lemma span_len_lt p l :
  (span_len p l <? length l)%nat = existsb (fun c => negb (p c)) l.
Proof.
  induction l as [| c l IH]; simpl; [reflexivity |].
  destruct (p c); simpl; [exact IH | reflexivity].
Qed.

Lemma char_at_drop chars pos : char_at chars pos = hd 0 (drop pos chars).
Proof.
  unfold char_at. revert pos.
  induction chars as [| c l IH]; intros [| n]; simpl; auto.
Qed.


(** The scan of the source and the words of the specification. *)
Lemma scan_junk_spec chars pos id :
  scan_junk chars pos id
  = if remainder_is_junk (drop pos chars) then ID_JUNK else id.
Proof.
  unfold scan_junk, remainder_is_junk, scan_while.
  rewrite char_at_drop.
  destruct (Nat.ltb_spec pos (length chars)) as [Hlt | Hge].
  - pose proof (length_drop chars pos) as Hlen.
    destruct (drop pos chars) as [| c rest] eqn:Hd; simpl in *; [lia |].
    destruct (isdigit c) eqn:Hdig; simpl.
    + rewrite orb_true_r.
      destruct (Nat.ltb_spec pos (length chars)); [reflexivity | lia].
    + rewrite orb_false_r.
      pose proof (span_len_lt is_identchar (c :: rest)) as Hs. simpl in Hs.
      rewrite <- Hs.
      destruct (is_identchar c); simpl.
      * destruct (Nat.ltb_spec (pos + S (span_len is_identchar rest)) (length chars)),
          (Nat.ltb_spec (S (span_len is_identchar rest)) (S (length rest)));
          try reflexivity; lia.
      * destruct (Nat.ltb_spec (pos + 0) (length chars)); [reflexivity | lia].
  - rewrite drop_ge by lia. simpl.
    destruct (Nat.ltb_spec pos (length chars)); [lia | reflexivity].
Qed.

Lemma scan_junk_cases chars pos id :
  scan_junk chars pos id = ID_JUNK \/ scan_junk chars pos id = id.
Proof. rewrite scan_junk_spec. destruct (remainder_is_junk _); auto. Qed.

Lemma existsb_app_last (f : UChar -> bool) l c :
  f c = true -> existsb f (l ++ [c]) = true.
Proof. intros H. rewrite existsb_app. simpl. rewrite H. apply orb_true_r. Qed.

(** A name that ends in an equal sign does not pass the scan. *)
Lemma scan_junk_setter p id :
  scan_junk (p ++ [chr "="]) 0 id = ID_JUNK.
Proof.
  rewrite scan_junk_spec. unfold drop, remainder_is_junk.
  rewrite existsb_app_last; reflexivity.
Qed.

(** The shape of the attribute branch, as a decomposition. *)
Lemma attr_shape_inv name :
  attr_shape name = true ->
  exists c rest, name = (c :: rest) ++ [chr "="]
    /\ c <> chr "$" /\ c <> chr "@"
    /\ rb_str_substr name 0 (length name - 1) = c :: rest.
Proof.
  unfold attr_shape, rb_str_substr, char_at. intros H.
  apply andb_prop in H as [H H4]. apply andb_prop in H as [H H3].
  apply andb_prop in H as [H1 H2].
  apply Nat.ltb_lt in H1. apply Z.eqb_eq in H2.
  apply negb_true_iff, Z.eqb_neq in H3, H4.
  destruct (exists_last (l := name)) as (p & e & ->).
  { intros ->. simpl in H1. lia. }
  rewrite length_app in *. simpl in *.
  replace (length p + 1 - 1)%nat with (length p) in * by lia.
  rewrite app_nth2 in H2; [| lia].
  replace (length p - length p)%nat with 0%nat in H2; [| lia].
  simpl in H2. subst e.
  destruct p as [| c rest]; simpl in *; [lia |].
  exists c, rest. repeat split; auto.
  f_equal. rewrite take_app_length. reflexivity.
Qed.

Lemma attr_shape_intro c rest :
  c <> chr "$" -> c <> chr "@" -> attr_shape ((c :: rest) ++ [chr "="]) = true.
Proof.
  intros H1 H2. unfold attr_shape, char_at.
  rewrite length_app.
  replace (length (c :: rest) + length [chr "="] - 1)%nat
    with (length (c :: rest)) by (simpl; lia).
  rewrite nth_middle. simpl.
  destruct (Nat.ltb_spec 1 (S (length rest + 1))); [| lia].
  apply Z.eqb_neq in H1, H2. rewrite H1, H2. reflexivity.
Qed.

Lemma classify_plain name :
  attr_shape name = false -> classify name = Some (plain_tag name).
Proof.
  intros Hs. unfold classify.
  destruct (length name); cbn [classify_fuel]; rewrite Hs; reflexivity.
Qed.

Lemma classify_setter name :
  attr_shape name = true ->
  classify name =
    match classify (rb_str_substr name 0 (length name - 1)) with
    | None => None
    | Some t => Some (if t =? ID_ATTRSET then ID_JUNK else ID_ATTRSET)
    end.
Proof.
  intros Hs. unfold classify.
  assert (Hl : length (rb_str_substr name 0 (length name - 1))
               = (length name - 1)%nat).
  { unfold rb_str_substr. rewrite length_take, drop_0. lia. }
  rewrite Hl.
  destruct (length name) as [| n] eqn:Hn.
  - unfold attr_shape in Hs. rewrite Hn in Hs. discriminate.
  - cbn [classify_fuel]. rewrite Hs, ?Hn.
    replace (S n - 1)%nat with n by lia. reflexivity.
Qed.

End Scan.

(** ** The equations of [rb_intern_str] and [rb_id2str] *)

Section Equations.

Context {P : SymbolParams}.

Lemma length_substr_last (str : list UChar) :
  length (rb_str_substr str 0 (length str - 1)) = (length str - 1)%nat.
Proof. unfold rb_str_substr. rewrite length_take, drop_0. lia. Qed.

(** [rb_intern_str] as the source reads: the lookup, then the
    attribute branch with its recursive call, or a new ID with the
    tag of the other arms. *)
Lemma rb_intern_str_eq st str :
  rb_intern_str st str =
    let id := CFDictionaryGetValue (sym_id st) (rb_str_hash str) in
    if negb (id =? 0) then Some (id, st)
    else if attr_shape str then
      match rb_intern_str st (rb_str_substr str 0 (length str - 1)) with
      | None => None
      | Some (b, st1) =>
        if negb (is_attrset_id b)
        then Some (id_register st1 str (rb_id_attrset b))
        else Some (new_id st1 str (scan_junk str 0 ID_ATTRSET))
      end
    else Some (new_id st str (plain_tag str)).
Proof.
  unfold rb_intern_str at 1.
  destruct str as [| c rest].
  - simpl. unfold rb_intern_body. simpl.
    destruct (Z.eqb_spec (CFDictionaryGetValue (sym_id st) (rb_str_hash [])) 0)
      as [-> | Hne]; reflexivity.
  - cbv zeta. change (length (c :: rest)) with (S (length rest)).
    cbn [rb_intern_fuel]. unfold rb_intern_body. cbv zeta.
    destruct (negb (CFDictionaryGetValue (sym_id st) (rb_str_hash (c :: rest)) =? 0));
      [reflexivity |].
    unfold attr_shape, plain_tag.
    change (length (c :: rest)) with (S (length rest)).
    change (char_at (c :: rest) 0) with c.
    change (0 <? S (length rest))%nat with true. cbv iota.
    destruct (c =? chr "$"); [rewrite andb_false_r; reflexivity |].
    destruct (c =? chr "@").
    { rewrite andb_false_r.
      destruct ((1 <? S (length rest))%nat && (char_at (c :: rest) 1 =? chr "@"));
        reflexivity. }
    rewrite !andb_true_r.
    destruct ((1 <? S (length rest))%nat
              && (char_at (c :: rest) (S (length rest) - 1) =? chr "=")).
    + unfold rb_intern_str.
      pose proof (length_substr_last (c :: rest)) as Hl.
      change (length (c :: rest)) with (S (length rest)) in Hl.
      rewrite Hl. replace (S (length rest) - 1)%nat with (length rest) by lia.
      destruct (rb_intern_fuel (length rest) st
                  (rb_str_substr (c :: rest) 0 (length rest)))
        as [[b st1] |]; [| reflexivity].
      destruct (negb (is_attrset_id b)); reflexivity.
    + destruct (iswupper c); reflexivity.
Qed.

(** [rb_intern_str] returns on every name. *)
Lemma rb_intern_str_total st str :
  exists id st', rb_intern_str st str = Some (id, st').
Proof.
  remember (length str) as n eqn:Hn. revert st str Hn.
  induction n as [n IH] using lt_wf_ind. intros st str Hn.
  rewrite rb_intern_str_eq. cbv zeta.
  destruct (negb _); [eauto |].
  destruct (attr_shape str) eqn:Hshape.
  - apply attr_shape_inv in Hshape as (c & rest & Hstr & _ & _ & Hsub).
    rewrite Hsub.
    destruct (IH (length (c :: rest))) with (st := st) (str := c :: rest)
      as (b & st1 & Hrec); [| reflexivity |].
    { subst n str. rewrite length_app. simpl. lia. }
    rewrite Hrec.
    destruct (negb (is_attrset_id b)).
    + destruct (id_register st1 str (rb_id_attrset b)); eauto.
    + destruct (new_id st1 str (scan_junk str 0 ID_ATTRSET)); eauto.
  - destruct (new_id st str (plain_tag str)); eauto.
Qed.

Lemma rb_intern_fuel_S fuel st str :
  (length str <= fuel)%nat ->
  rb_intern_fuel (S fuel) st str = rb_intern_fuel fuel st str.
Proof.
  revert st str. induction fuel as [| fuel IH]; intros st str Hlen.
  - destruct str; [reflexivity | simpl in Hlen; lia].
  - change (rb_intern_body (rb_intern_fuel (S fuel)) st str
            = rb_intern_body (rb_intern_fuel fuel) st str).
    unfold rb_intern_body. cbv zeta.
    destruct (negb _); [reflexivity |].
    destruct (0 <? length str)%nat; [| reflexivity].
    destruct (char_at str 0 =? chr "$"); [reflexivity |].
    destruct (char_at str 0 =? chr "@"); [reflexivity |].
    destruct ((1 <? length str)%nat && _); [| reflexivity].
    pose proof (length_substr_last str) as Hl.
    rewrite IH by (rewrite Hl; lia).
    reflexivity.
Qed.

(** More fuel than the length of the name changes nothing. *)
Lemma rb_intern_fuel_enough fuel st str :
  (length str <= fuel)%nat -> rb_intern_fuel fuel st str = rb_intern_str st str.
Proof.
  unfold rb_intern_str. intros Hlen.
  induction Hlen as [| fuel Hle IH]; [reflexivity |].
  rewrite rb_intern_fuel_S by exact Hle. exact IH.
Qed.

End Equations.

Section EquationsId2str.

Context {P : SymbolParams} {OK : SymbolParamsOK}.

Lemma is_attrset_id_scope id :
  is_attrset_id id = true <-> tLAST_TOKEN < id /\ scope_of id = ID_ATTRSET.
Proof.
  unfold is_attrset_id, is_notop_id, scope_of.
  rewrite andb_true_iff, Z.ltb_lt, Z.eqb_eq. reflexivity.
Qed.

Lemma is_attrset_id_false id :
  scope_of id <> ID_ATTRSET -> is_attrset_id id = false.
Proof.
  intros H. apply not_true_is_false. rewrite is_attrset_id_scope. tauto.
Qed.

Lemma is_local_id_scope id :
  is_local_id id = true <-> tLAST_TOKEN < id /\ scope_of id = ID_LOCAL.
Proof.
  unfold is_local_id, is_notop_id, scope_of.
  rewrite andb_true_iff, Z.ltb_lt, Z.eqb_eq. reflexivity.
Qed.

Lemma scope_of_attrset id : scope_of (rb_id_attrset id) = ID_ATTRSET.
Proof. tag_bounds. now apply (scope_of_with_scope id). Qed.

Lemma seq_of_attrset id : seq_of (rb_id_attrset id) = seq_of id.
Proof. tag_bounds. now apply (seq_of_with_scope id). Qed.

(** On an ID that is no attribute setter, [rb_id2str] is the lookup. *)
Lemma rb_id2str_fuel_plain fuel st id :
  scope_of id <> ID_ATTRSET ->
  rb_id2str_fuel fuel st id =
    match id_str st !! id with
    | Some sym => Some (Some sym, st)
    | None => Some (None, st)
    end.
Proof.
  intros Hne. destruct fuel; cbn [rb_id2str_fuel];
    rewrite (is_attrset_id_false id Hne); reflexivity.
Qed.

Lemma rb_id2str_fuel_eq fuel st id :
  rb_id2str_fuel (S fuel) st id =
    match id_str st !! id with
    | Some sym => Some (Some sym, st)
    | None =>
      if is_attrset_id id then
        match id_str st !! with_scope id ID_LOCAL with
        | Some sym => id2str_derive st id sym
        | None =>
          if negb (is_local_id (with_scope id ID_LOCAL)) then Some (None, st)
          else
            match id_str st !! with_scope id ID_CONST with
            | Some sym => id2str_derive st id sym
            | None => Some (None, st)
            end
        end
      else Some (None, st)
    end.
Proof.
  tag_bounds. tag_facts.
  cbn [rb_id2str_fuel].
  destruct (id_str st !! id); [reflexivity |].
  destruct (is_attrset_id id); [| reflexivity].
  fold (with_scope id ID_LOCAL). cbn [id2str_loop].
  rewrite (rb_id2str_fuel_plain fuel st (with_scope id ID_LOCAL))
    by (rewrite scope_of_with_scope; auto).
  destruct (id_str st !! with_scope id ID_LOCAL); [reflexivity |].
  destruct (negb (is_local_id (with_scope id ID_LOCAL))); [reflexivity |].
  fold (with_scope id ID_CONST).
  rewrite (rb_id2str_fuel_plain fuel st (with_scope id ID_CONST))
    by (rewrite scope_of_with_scope; auto).
  destruct (id_str st !! with_scope id ID_CONST); [reflexivity |].
  replace (is_local_id (with_scope id ID_CONST)) with false; [reflexivity |].
  symmetry. apply not_true_is_false. rewrite is_local_id_scope.
  rewrite scope_of_with_scope by auto. intros [_ ?]. congruence.
Qed.

(** [rb_id2str] as the source reads, the loop unrolled: the base is
    looked up with the tag Local and, when that ID is a local ID
    without a record, with the tag Constant. *)
Lemma rb_id2str_eq st id :
  rb_id2str st id =
    match id_str st !! id with
    | Some sym => Some (Some sym, st)
    | None =>
      if is_attrset_id id then
        match id_str st !! with_scope id ID_LOCAL with
        | Some sym => id2str_derive st id sym
        | None =>
          if negb (is_local_id (with_scope id ID_LOCAL)) then Some (None, st)
          else
            match id_str st !! with_scope id ID_CONST with
            | Some sym => id2str_derive st id sym
            | None => Some (None, st)
            end
        end
      else Some (None, st)
    end.
Proof. apply rb_id2str_fuel_eq. Qed.

(** [rb_id2str] returns on every ID. *)
Lemma rb_id2str_total st id : exists r st', rb_id2str st id = Some (r, st').
Proof.
  assert (Hd : forall sym, exists r st', id2str_derive st id sym = Some (r, st')).
  { intros sym. unfold id2str_derive.
    destruct (rb_intern_str_total st (rsym_str sym ++ [chr "="]))
      as (i & st2 & ->).
    destruct (id_str st2 !! id); eauto. }
  rewrite rb_id2str_eq.
  destruct (id_str st !! id); [eauto |].
  destruct (is_attrset_id id); [| eauto].
  destruct (id_str st !! with_scope id ID_LOCAL); [apply Hd |].
  destruct (negb _); [eauto |].
  destruct (id_str st !! with_scope id ID_CONST); [apply Hd | eauto].
Qed.

(** One unit of fuel is enough for [rb_id2str]. *)
Lemma rb_id2str_fuel_enough fuel st id :
  rb_id2str_fuel (S fuel) st id = rb_id2str st id.
Proof. rewrite rb_id2str_eq. apply rb_id2str_fuel_eq. Qed.

End EquationsId2str.

(** ** The literal escaper: statements *)

Section Escaper.

Lemma escaped_bracket_one :
  sym_should_be_escaped [chr "["] = false.
Proof. reflexivity. Qed.

Lemma escaped_bracket_two a :
  sym_should_be_escaped [chr "["; a] = negb (a =? chr "]").
Proof.
  unfold sym_should_be_escaped.
  change (existsb (fun c => negb (isprint c)) [chr "["; a])
    with (negb (isprint a) || false).
  change (escaped_switch [chr "["; a])
    with (if negb (a =? chr "]") then Bail true else Break false 2).
  change (chr "]") with 93.
  destruct (Z.eqb_spec a 93) as [-> | Hne]; [reflexivity |].
  simpl. destruct (isprint a); reflexivity.
Qed.

Lemma escaped_bracket_more a b r :
  sym_should_be_escaped (chr "[" :: a :: b :: r)
  = negb ((a =? chr "]") && (b =? chr "=") && (length r =? 0)%nat).
Proof.
  unfold sym_should_be_escaped.
  change (existsb (fun c => negb (isprint c)) (chr "[" :: a :: b :: r))
    with (negb (isprint a)
          || (negb (isprint b) || existsb (fun c => negb (isprint c)) r)).
  change (escaped_switch (chr "[" :: a :: b :: r))
    with (if negb (a =? chr "]") then Bail true
          else if b =? chr "=" then Break false 3 else Break false 2).
  change (chr "]") with 93. change (chr "=") with 61.
  destruct (Z.eqb_spec a 93) as [-> | Hne].
  2: { simpl. destruct (isprint a), (isprint b), (existsb _ r); reflexivity. }
  destruct (Z.eqb_spec b 61) as [-> | Hne].
  2: { simpl. destruct (isprint b), (existsb _ r); reflexivity. }
  simpl. destruct r as [| c r]; simpl; [reflexivity |].
  destruct (negb (isprint c) || _); reflexivity.
Qed.

(** C7.  Among the texts that begin with an opening bracket, the
    ones that [sym_should_be_escaped] prints bare are the indexing
    operators [[]] and [[]=] and also the bracket alone: on the
    one-character text the arm steps over the end of the text and no
    escape is requested.  Every other such text is escaped. *)
Theorem escaped_bracket rest :
  sym_should_be_escaped (chr "[" :: rest) = false
  <-> rest = [] \/ rest = [chr "]"] \/ rest = [chr "]"; chr "="].
Proof.
  destruct rest as [| a [| b r]].
  - rewrite escaped_bracket_one. split; auto.
  - rewrite escaped_bracket_two. rewrite negb_false_iff, Z.eqb_eq.
    split.
    + intros ->. auto.
    + intros [H | [H | H]]; congruence.
  - rewrite escaped_bracket_more.
    rewrite negb_false_iff, !andb_true_iff, !Z.eqb_eq, Nat.eqb_eq.
    split.
    + intros [[-> ->] Hr]. destruct r; [auto | discriminate].
    + intros [H | [H | H]]; try discriminate.
      injection H as -> -> ->. auto.
Qed.

Variable rb_str_inspect : list UChar -> list UChar.

Hypothesis inspect_plain :
  forall str, plain_text str = true -> rb_str_inspect str = quote_text str.

Lemma escaped_unprintable str c :
  In c str -> isprint c = false -> sym_should_be_escaped str = true.
Proof.
  intros Hin Hc. unfold sym_should_be_escaped.
  destruct (length str =? 0)%nat; [reflexivity |].
  replace (existsb (fun c => negb (isprint c)) str) with true; [reflexivity |].
  symmetry. apply existsb_exists. exists c. rewrite Hc. auto.
Qed.

(** C6.  [rsym_inspect] prints [foo] and [+] bare, after the colon,
    and prints [foo bar] and the empty text through the string
    printer, between double quotes; the empty text and every text
    with a non-printable character are escaped. *)
Theorem inspect_examples :
  rsym_inspect rb_str_inspect (uchars "foo") = uchars ":foo"
  /\ rsym_inspect rb_str_inspect (uchars "foo bar")
     = uchars ":" ++ [dquote] ++ uchars "foo bar" ++ [dquote]
  /\ rsym_inspect rb_str_inspect (uchars "+") = uchars ":+"
  /\ rsym_inspect rb_str_inspect [] = uchars ":" ++ [dquote; dquote]
  /\ sym_should_be_escaped [] = true
  /\ forall str c, In c str -> isprint c = false ->
       sym_should_be_escaped str = true
       /\ rsym_inspect rb_str_inspect str = uchars ":" ++ rb_str_inspect str.
Proof.
  repeat split.
  - unfold rsym_inspect.
    change (sym_should_be_escaped (uchars "foo bar")) with true. cbv iota.
    rewrite inspect_plain by reflexivity. reflexivity.
  - unfold rsym_inspect.
    change (sym_should_be_escaped []) with true. cbv iota.
    rewrite inspect_plain by reflexivity. reflexivity.
  - eapply escaped_unprintable; eauto.
  - unfold rsym_inspect. erewrite escaped_unprintable by eauto. reflexivity.
Qed.

End Escaper.

(** The statement of C6 on the printer [quote_text]. *)
Lemma inspect_examples_witness :
  (forall str, plain_text str = true -> quote_text str = quote_text str)
  /\ rsym_inspect quote_text (uchars "foo bar")
     = uchars ":" ++ [dquote] ++ uchars "foo bar" ++ [dquote].
Proof.
  split; [reflexivity |].
  apply (inspect_examples quote_text). reflexivity.
Defined.

(** ** Classification *)

Section Classification.

Context {P : SymbolParams} {OK : SymbolParamsOK}.

Lemma fresh_lookup st name :
  fresh st name -> negb (CFDictionaryGetValue (sym_id st) (rb_str_hash name) =? 0) = false.
Proof. unfold fresh. intros ->. reflexivity. Qed.

Lemma known_lookup st name id :
  sym_id st !! rb_str_hash name = Some id -> id <> 0 ->
  negb (CFDictionaryGetValue (sym_id st) (rb_str_hash name) =? 0) = true.
Proof.
  unfold CFDictionaryGetValue. intros -> Hne. simpl.
  apply negb_true_iff, Z.eqb_neq, Hne.
Qed.

(** A known name: the lookup of line 54 answers. *)
Lemma intern_known st name id :
  sym_id st !! rb_str_hash name = Some id -> id <> 0 ->
  rb_intern_str st name = Some (id, st).
Proof.
  intros Hl Hne. rewrite rb_intern_str_eq. cbv zeta.
  rewrite (known_lookup st name id Hl Hne).
  unfold CFDictionaryGetValue. rewrite Hl. reflexivity.
Qed.

(** Two names with one hash are one symbol: the second gets the ID of
    the first and no record. *)
Lemma collision_unified st s1 s2 id :
  rb_str_hash s2 = rb_str_hash s1 ->
  sym_id st !! rb_str_hash s1 = Some id -> id <> 0 ->
  rb_intern_str st s2 = Some (id, st).
Proof. intros Heq Hl Hne. apply intern_known; congruence. Qed.

(** A new name outside the attribute branch. *)
Lemma intern_plain st name :
  fresh st name -> attr_shape name = false ->
  rb_intern_str st name = Some (new_id st name (plain_tag name)).
Proof.
  intros Hf Hs. rewrite rb_intern_str_eq. cbv zeta.
  rewrite (fresh_lookup st name Hf), Hs. reflexivity.
Qed.

(** A new name in the attribute branch, over the ID of its base. *)
Lemma intern_setter st name b st1 :
  fresh st name -> attr_shape name = true ->
  rb_intern_str st (rb_str_substr name 0 (length name - 1)) = Some (b, st1) ->
  rb_intern_str st name =
    if negb (is_attrset_id b)
    then Some (id_register st1 name (rb_id_attrset b))
    else Some (new_id st1 name ID_JUNK).
Proof.
  intros Hf Hs Hb. rewrite rb_intern_str_eq. cbv zeta.
  rewrite (fresh_lookup st name Hf), Hs, Hb.
  destruct (negb (is_attrset_id b)); [reflexivity |].
  apply attr_shape_inv in Hs as (c & rest & -> & _).
  rewrite scan_junk_setter. reflexivity.
Qed.

Lemma scope_of_new_id st name t :
  0 <= t <= ID_SCOPE_MASK -> scope_of (fst (new_id st name t)) = t.
Proof. intros Ht. unfold new_id, id_register. simpl. now apply scope_of_new. Qed.

Lemma seq_of_new_id st name t :
  0 <= t <= ID_SCOPE_MASK -> seq_of (fst (new_id st name t)) = last_id st + 1.
Proof. intros Ht. unfold new_id, id_register. simpl. now apply seq_of_new. Qed.

Lemma scan_junk_range chars pos id :
  0 <= id <= ID_SCOPE_MASK -> 0 <= scan_junk chars pos id <= ID_SCOPE_MASK.
Proof.
  tag_bounds. intros Hid.
  destruct (scan_junk_cases chars pos id) as [-> | ->]; lia.
Qed.

Lemma plain_tag_range name : 0 <= plain_tag name <= ID_SCOPE_MASK.
Proof.
  tag_bounds. pose proof mask_nonneg.
  unfold plain_tag. destruct name as [| c rest].
  - apply scan_junk_range. lia.
  - repeat match goal with
           | |- context [if ?b then _ else _] => destruct b
           end; try apply scan_junk_range; lia.
Qed.

Lemma plain_tag_not_attrset name : plain_tag name <> ID_ATTRSET.
Proof.
  tag_facts.
  unfold plain_tag. destruct name as [| c rest].
  - destruct (scan_junk_cases [] 0 0) as [-> | ->]; congruence.
  - repeat match goal with
           | |- context [if ?b then _ else _] => destruct b
           end;
      try match goal with
          | |- scan_junk ?l ?p ?i <> _ =>
            destruct (scan_junk_cases l p i) as [-> | ->]
          end; congruence.
Qed.

(** The tags Local and Constant come from the default arm only. *)
Lemma plain_tag_head c rest :
  plain_tag (c :: rest) = ID_LOCAL \/ plain_tag (c :: rest) = ID_CONST ->
  c <> chr "$" /\ c <> chr "@".
Proof.
  tag_facts. unfold plain_tag.
  destruct (Z.eqb_spec c (chr "$")) as [-> | Hdollar];
    [intros [? | ?]; congruence |].
  destruct (Z.eqb_spec c (chr "@")) as [-> | Hat]; [| auto].
  destruct (_ && _);
    match goal with
    | |- context [scan_junk ?l ?p ?i] =>
      destruct (scan_junk_cases l p i) as [-> | ->]
    end; intros [? | ?]; congruence.
Qed.

(** The tag of a new name outside the attribute branch, in the words
    of the specification. *)
Lemma plain_tag_spec c rest :
  plain_tag (c :: rest) =
    if c =? chr "$" then ID_GLOBAL
    else if c =? chr "@" then
      match rest with
      | c2 :: rest2 =>
        if c2 =? chr "@"
        then (if remainder_is_junk rest2 then ID_JUNK else ID_CLASS)
        else (if remainder_is_junk rest then ID_JUNK else ID_INSTANCE)
      | [] => ID_INSTANCE
      end
    else if remainder_is_junk (c :: rest) then ID_JUNK
    else if iswupper c then ID_CONST else ID_LOCAL.
Proof.
  unfold plain_tag. rewrite !scan_junk_spec.
  destruct (c =? chr "$"); [reflexivity |].
  destruct (c =? chr "@").
  - destruct rest as [| c2 rest2]; [reflexivity |].
    unfold char_at. simpl nth. simpl length.
    destruct (c2 =? chr "@"); simpl; [| reflexivity].
    destruct (Nat.ltb_spec 1 (S (S (length rest2)))); [reflexivity | lia].
  - unfold drop. destruct (iswupper c), (remainder_is_junk (c :: rest)); reflexivity.
Qed.

End Classification.

Section Setters.

Context {P : SymbolParams} {OK : SymbolParamsOK}.

Lemma land_lnot_attrset b :
  Z.land (rb_id_attrset b) (Z.lnot ID_SCOPE_MASK) = Z.land b (Z.lnot ID_SCOPE_MASK).
Proof. rewrite !land_lnot_mask, seq_of_attrset. reflexivity. Qed.

Lemma with_scope_attrset b t : with_scope (rb_id_attrset b) t = with_scope b t.
Proof. apply with_scope_same_seq, seq_of_attrset. Qed.

Lemma intern_setter_new st name b st1 :
  fresh st name -> attr_shape name = true ->
  rb_intern_str st (rb_str_substr name 0 (length name - 1)) = Some (b, st1) ->
  is_attrset_id b = false ->
  exists st2, rb_intern_str st name = Some (rb_id_attrset b, st2)
    /\ id_str st2 !! rb_id_attrset b
       = Some {| rsym_str := name; rsym_id := rb_id_attrset b |}.
Proof.
  intros Hf Hs Hb Hna.
  rewrite (intern_setter st name b st1 Hf Hs Hb), Hna. simpl.
  eexists. split; [reflexivity |]. simpl. apply lookup_insert_eq.
Qed.

(** C9.  The ID that the attribute branch of [rb_intern_str] gives
    to a new name is the ID [b] of its base with the scope field
    replaced by the tag of an attribute setter: the same sequence
    bits, and putting the tag of [b] back gives [b].  [rb_id2str], on
    such an ID without a record, looks the base up under these
    sequence bits with the tag Local, then with the tag Constant. *)
Theorem setter_id_of_base st name b st1 :
  fresh st name -> attr_shape name = true ->
  rb_intern_str st (rb_str_substr name 0 (length name - 1)) = Some (b, st1) ->
  is_attrset_id b = false ->
  let id := rb_id_attrset b in
  (exists st2, rb_intern_str st name = Some (id, st2)
     /\ id_str st2 !! id = Some {| rsym_str := name; rsym_id := id |})
  /\ seq_of id = seq_of b
  /\ Z.land id (Z.lnot ID_SCOPE_MASK) = Z.land b (Z.lnot ID_SCOPE_MASK)
  /\ scope_of id = ID_ATTRSET
  /\ with_scope id (scope_of b) = b
  /\ (forall st', id_str st' !! id = None -> is_attrset_id id = true ->
      rb_id2str st' id =
        match id_str st' !! with_scope b ID_LOCAL with
        | Some sym => id2str_derive st' id sym
        | None =>
          if negb (is_local_id (with_scope b ID_LOCAL)) then Some (None, st')
          else
            match id_str st' !! with_scope b ID_CONST with
            | Some sym => id2str_derive st' id sym
            | None => Some (None, st')
            end
        end).
Proof.
  intros Hf Hs Hb Hna id. subst id. repeat split.
  - now apply intern_setter_new with st1.
  - apply seq_of_attrset.
  - apply land_lnot_attrset.
  - apply scope_of_attrset.
  - rewrite with_scope_attrset. apply with_scope_self.
  - intros st' Hnone Hattr. rewrite rb_id2str_eq, Hnone, Hattr.
    rewrite !with_scope_attrset. reflexivity.
Qed.

End Setters.

(** ** The consistency of the table *)

Section Invariant.

Context {P : SymbolParams} {OK : SymbolParamsOK}.
Variable D : list UChar -> Prop.
Hypothesis U : universe D.

Lemma grows_refl name st : grows D name st st.
Proof. split; auto. lia. Qed.

Lemma grows_trans p name st st1 st2 :
  (length p <= length name)%nat ->
  grows D p st st1 -> grows D name st1 st2 -> grows D name st st2.
Proof.
  intros Hlen [H1 H2 H3 H4] [K1 K2 K3 K4]. split; auto; [lia |].
  intros h id Hl. destruct (K4 h id Hl) as [Hold | Hq]; [| auto].
  destruct (H4 h id Hold) as [? | (q & Hq & Hlq & ->)]; [auto |].
  right. exists q. repeat split; auto. lia.
Qed.

Lemma inv_fresh_none st name :
  table_inv D st -> fresh st name -> sym_id st !! rb_str_hash name = None.
Proof.
  intros Hinv Hf. unfold fresh, CFDictionaryGetValue in Hf.
  destruct (sym_id st !! rb_str_hash name) as [id |] eqn:Hl; [| reflexivity].
  destruct (inv_hash D st Hinv _ _ Hl) as [Hne _]. simpl in Hf. congruence.
Qed.

Lemma none_fresh st name :
  sym_id st !! rb_str_hash name = None -> fresh st name.
Proof. unfold fresh, CFDictionaryGetValue. intros ->. reflexivity. Qed.

Lemma token_pos t n : In (t, n) rb_op_tbl -> 0 < t <= tLAST_TOKEN.
Proof.
  intros Hin. pose proof (u_tokens D U) as Ht.
  rewrite Forall_forall in Ht. apply (Ht (t, n)).
  apply list_elem_of_In, Hin.
Qed.

(** A new record under an unused ID and an unused hash. *)
Lemma register_inv st name id :
  table_inv D st -> D name ->
  sym_id st !! rb_str_hash name = None -> id_str st !! id = None ->
  tLAST_TOKEN < id -> 1000 < seq_of id -> seq_of id <= last_id st ->
  (scope_of id = ID_ATTRSET ->
   exists b p, name = p ++ [chr "="]
     /\ id_str st !! b = Some {| rsym_str := p; rsym_id := b |}
     /\ tLAST_TOKEN < b /\ scope_of b <> ID_ATTRSET /\ rb_id_attrset b = id) ->
  (scope_of id <> ID_ATTRSET ->
   forall id2 sym2, id_str st !! id2 = Some sym2 -> seq_of id2 <> seq_of id) ->
  (scope_of id = ID_LOCAL \/ scope_of id = ID_CONST ->
   forall c rest, name = c :: rest -> c <> chr "$" /\ c <> chr "@") ->
  classify name = Some (scope_of id) ->
  table_inv D (snd (id_register st name id)).
Proof.
  intros Hinv HD Hh Hid Hdyn Hseq Hlast Hattr Huniq Hhead Hclass.
  pose proof last_token_range as Htok.
  destruct Hinv as [I1 I2 I3 I4 I5 I6 I7 I8 I9 I10 I11].
  split; simpl.
  - intros h i Hl. destruct (decide (rb_str_hash name = h)) as [<- | Hne].
    + rewrite lookup_insert_eq in Hl. injection Hl as <-.
      split; [lia |]. exists name. rewrite lookup_insert_eq. auto.
    + rewrite lookup_insert_ne in Hl by exact Hne.
      destruct (I1 h i Hl) as (Hi0 & s & Hs & Hhs & Hrec).
      split; [exact Hi0 |]. exists s. repeat split; auto.
      rewrite lookup_insert_ne; [exact Hrec | congruence].
  - intros i sym Hl. destruct (decide (id = i)) as [<- | Hne].
    + rewrite lookup_insert_eq in Hl. injection Hl as <-. simpl.
      rewrite lookup_insert_eq. auto.
    + rewrite lookup_insert_ne in Hl by exact Hne.
      destruct (I2 i sym Hl) as (Hi & Hs & Hsym). repeat split; auto.
      rewrite lookup_insert_ne; [exact Hsym |].
      intros Heq. apply (u_hash_inj D U) in Heq; auto. congruence.
  - exact I3.
  - intros i sym Hl. destruct (decide (id = i)) as [<- | Hne].
    + split; lia.
    + rewrite lookup_insert_ne in Hl by exact Hne. eauto.
  - intros i sym Hl Hle. destruct (decide (id = i)) as [<- | Hne]; [lia |].
    rewrite lookup_insert_ne in Hl by exact Hne. eauto.
  - intros i sym Hl Hgt. destruct (decide (id = i)) as [<- | Hne]; [lia |].
    rewrite lookup_insert_ne in Hl by exact Hne. eauto.
  - intros t n Hin. rewrite lookup_insert_ne; [eauto |].
    intros Heq. specialize (I7 t n Hin). congruence.
  - intros i sym Hl Hat. apply is_attrset_id_scope in Hat as [Hgt Hsc].
    destruct (decide (id = i)) as [<- | Hne].
    + rewrite lookup_insert_eq in Hl. injection Hl as <-. simpl.
      destruct (Hattr Hsc) as (b & p & -> & Hb & Hbd & Hbs & Hbi).
      exists b, p. repeat split; auto.
      rewrite lookup_insert_ne; [exact Hb | congruence].
    + rewrite lookup_insert_ne in Hl by exact Hne.
      destruct (I8 i sym Hl) as (b & p & Hp & Hb & Hbd & Hbs & Hbi).
      { apply is_attrset_id_scope. auto. }
      exists b, p. repeat split; auto.
      rewrite lookup_insert_ne; [exact Hb | congruence].
  - intros i1 i2 s1 s2 Hl1 Hl2 Hd1 Hd2 Hs1 Hs2 Heq.
    destruct (decide (id = i1)) as [<- | Hne1], (decide (id = i2)) as [<- | Hne2];
      auto.
    + rewrite lookup_insert_ne in Hl2 by exact Hne2.
      exfalso. apply (Huniq Hs1 i2 s2 Hl2). congruence.
    + rewrite lookup_insert_ne in Hl1 by exact Hne1.
      exfalso. apply (Huniq Hs2 i1 s1 Hl1). congruence.
    + rewrite lookup_insert_ne in Hl1 by exact Hne1.
      rewrite lookup_insert_ne in Hl2 by exact Hne2. eauto.
  - intros i c rest Hl Hgt Hsc. destruct (decide (id = i)) as [<- | Hne].
    + rewrite lookup_insert_eq in Hl. injection Hl as Hname. eauto.
    + rewrite lookup_insert_ne in Hl by exact Hne. eauto.
  - intros i sym Hl Hgt. destruct (decide (id = i)) as [<- | Hne].
    + rewrite lookup_insert_eq in Hl. injection Hl as <-. exact Hclass.
    + rewrite lookup_insert_ne in Hl by exact Hne. eauto.
Qed.

Lemma register_grows st name id :
  D name ->
  sym_id st !! rb_str_hash name = None -> id_str st !! id = None ->
  grows D name st (snd (id_register st name id)).
Proof.
  intros HD Hh Hid. split; simpl.
  - intros h i Hl. rewrite lookup_insert_ne; [exact Hl | congruence].
  - intros i sym Hl. rewrite lookup_insert_ne; [exact Hl | congruence].
  - lia.
  - intros h i Hl. destruct (decide (rb_str_hash name = h)) as [<- | Hne].
    + right. exists name. auto.
    + left. rewrite lookup_insert_ne in Hl by exact Hne. exact Hl.
Qed.

Lemma new_id_fresh_id st name t :
  table_inv D st -> 0 <= t <= ID_SCOPE_MASK ->
  id_str st !! fst (new_id st name t) = None.
Proof.
  intros Hinv Ht.
  destruct (id_str st !! fst (new_id st name t)) eqn:Hl; [| reflexivity].
  apply (inv_seq D st Hinv) in Hl as [_ Hl].
  rewrite seq_of_new_id in Hl by exact Ht. lia.
Qed.

(** A new record under the next sequence number. *)
Lemma new_id_inv st name t :
  table_inv D st -> D name ->
  sym_id st !! rb_str_hash name = None ->
  0 <= t <= ID_SCOPE_MASK -> t <> ID_ATTRSET ->
  (t = ID_LOCAL \/ t = ID_CONST ->
   forall c rest, name = c :: rest -> c <> chr "$" /\ c <> chr "@") ->
  classify name = Some t ->
  table_inv D (snd (new_id st name t))
  /\ grows D name st (snd (new_id st name t))
  /\ tLAST_TOKEN < fst (new_id st name t).
Proof.
  intros Hinv HD Hh Ht Hna Hhead Hclass.
  pose proof (new_id_fresh_id st name t Hinv Ht) as Hnone.
  pose proof (seq_of_new_id st name t Ht) as Hseq.
  pose proof (scope_of_new_id st name t Ht) as Hsc.
  pose proof (inv_last D st Hinv) as Hlast.
  assert (Hdyn : tLAST_TOKEN < fst (new_id st name t)).
  { apply seq_gt_floor. lia. }
  unfold new_id in *.
  set (st0 := {| sym_id := sym_id st; id_str := id_str st;
                 last_id := last_id st + 1 |}) in *.
  set (id := Z.lor t (Z.shiftl (last_id st + 1) ID_SCOPE_SHIFT)) in *.
  change (fst (id_register st0 name id)) with id in *.
  assert (Hinv0 : table_inv D st0).
  { destruct Hinv as [I1 I2 I3 I4 I5 I6 I7 I8 I9 I10 I11].
    split; simpl; auto; [lia |].
    intros i sym Hl. destruct (I4 i sym Hl). split; lia. }
  split; [| split].
  - apply register_inv;
      [exact Hinv0 | exact HD | exact Hh | exact Hnone | exact Hdyn
      | lia | simpl; lia | | | | ].
    + intros Hs. congruence.
    + intros _ id2 sym2 Hl.
      apply (inv_seq D st Hinv) in Hl as [_ Hl]. lia.
    + intros Hs. apply Hhead. congruence.
    + rewrite Hsc. exact Hclass.
  - destruct (register_grows st0 name id HD Hh Hnone) as [G1 G2 G3 G4].
    split; auto. simpl. lia.
  - exact Hdyn.
Qed.

Lemma new_id_entry st name t :
  sym_id (snd (new_id st name t)) !! rb_str_hash name = Some (fst (new_id st name t)).
Proof. unfold new_id, id_register. simpl. apply lookup_insert_eq. Qed.

Local Ltac split_post := split; [| split; [| split; [| split]]].

(** What a call of [rb_intern_str] on a name of [D] establishes. *)
Lemma intern_inv n : forall st name,
  length name = n -> table_inv D st -> D name ->
  exists id st', rb_intern_str st name = Some (id, st')
    /\ table_inv D st'
    /\ sym_id st' !! rb_str_hash name = Some id
    /\ grows D name st st'
    /\ (fresh st name -> tLAST_TOKEN < id /\ id_str st !! id = None).
Proof.
  tag_bounds.
  assert (Hjunk : ID_JUNK <> ID_ATTRSET
                  /\ ID_JUNK <> ID_LOCAL /\ ID_JUNK <> ID_CONST).
  { tag_facts. repeat split; congruence. }
  assert (Hset : ID_ATTRSET <> ID_LOCAL /\ ID_ATTRSET <> ID_CONST).
  { tag_facts. split; congruence. }
  induction n as [n IH] using lt_wf_ind. intros st name Hn Hinv HD.
  destruct (sym_id st !! rb_str_hash name) as [id |] eqn:Hl.
  { destruct (inv_hash D st Hinv _ _ Hl) as [Hne _].
    exists id, st. rewrite (intern_known st name id Hl Hne).
    split_post; auto using grows_refl.
    intros Hf. apply (inv_fresh_none st name Hinv) in Hf. congruence. }
  pose proof (none_fresh st name Hl) as Hf.
  destruct (attr_shape name) eqn:Hshape.
  - destruct (attr_shape_inv name Hshape) as (c & rest & Hname & Hc1 & Hc2 & Hsub).
    set (p := c :: rest) in *.
    assert (Hlen : (length p < length name)%nat).
    { rewrite Hname, length_app. simpl. lia. }
    assert (HDp : D p). { apply (u_base D U). rewrite <- Hname. exact HD. }
    destruct (IH (length p)) with (st := st) (name := p)
      as (b & st1 & Hrec & Hinv1 & Hb & Hg1 & _); auto; [lia |].
    assert (Hl1 : sym_id st1 !! rb_str_hash name = None).
    { destruct (sym_id st1 !! rb_str_hash name) as [x |] eqn:Hx; [| reflexivity].
      destruct (g_frame D p st st1 Hg1 _ _ Hx) as [Hold | (q & Hq & Hlq & Hhq)];
        [congruence |].
      apply (u_hash_inj D U) in Hhq; auto. subst q. lia. }
    destruct (inv_hash D st1 Hinv1 _ _ Hb) as (Hb0 & s & Hs & Hhs & Hbrec).
    apply (u_hash_inj D U) in Hhs; auto. subst s.
    rewrite <- Hsub in Hrec.
    rewrite (intern_setter st name b st1 Hf Hshape Hrec).
    destruct (is_attrset_id b) eqn:Hab; simpl.
    + destruct (new_id_inv st1 name ID_JUNK) as (Hinv2 & Hg2 & Hdyn); auto.
      { apply Hjunk. }
      { intros [Hx | Hx]; exfalso; revert Hx; apply Hjunk. }
      { apply is_attrset_id_scope in Hab as [Hbd Hbs].
        pose proof (inv_class D st1 Hinv1 _ _ Hbrec Hbd) as Hcp. simpl in Hcp.
        rewrite (classify_setter name Hshape), Hsub, Hcp, Hbs, Z.eqb_refl.
        reflexivity. }
      exists (fst (new_id st1 name ID_JUNK)), (snd (new_id st1 name ID_JUNK)).
      rewrite <- surjective_pairing.
      split_post; auto.
      * apply new_id_entry.
      * apply (grows_trans p name st st1); auto. lia.
      * intros _. split; [exact Hdyn |].
        destruct (id_str st !! fst (new_id st1 name ID_JUNK)) eqn:Hx; [| reflexivity].
        apply (g_rec D p st st1 Hg1) in Hx.
        rewrite new_id_fresh_id in Hx by auto. discriminate.
    + assert (Hbd : tLAST_TOKEN < b).
      { destruct (Z.lt_ge_cases tLAST_TOKEN b) as [? | Hle]; [assumption |].
        exfalso.
        pose proof (inv_op D st1 Hinv1 _ _ Hbrec Hle) as Hin. simpl in Hin.
        destruct (u_op_setter D U b p Hin) as (t' & Hin').
        { rewrite <- Hname. exact HD. }
        rewrite <- Hname in Hin'.
        pose proof (inv_ops D st Hinv _ _ Hin'). congruence. }
      assert (Hbs : scope_of b <> ID_ATTRSET).
      { intros Hsc. assert (is_attrset_id b = true); [| congruence].
        apply is_attrset_id_scope. auto. }
      pose proof (inv_dyn D st1 Hinv1 _ _ Hbrec Hbd) as Hbseq.
      pose proof (inv_seq D st1 Hinv1 _ _ Hbrec) as [_ Hblast].
      set (id := rb_id_attrset b).
      assert (Hseq : seq_of id = seq_of b) by apply seq_of_attrset.
      assert (Hsc : scope_of id = ID_ATTRSET) by apply scope_of_attrset.
      assert (Hdyn : tLAST_TOKEN < id). { apply seq_gt_floor. lia. }
      assert (Hnone : id_str st1 !! id = None).
      { destruct (id_str st1 !! id) as [sym |] eqn:Hx; [| reflexivity]. exfalso.
        destruct (inv_attr D st1 Hinv1 id sym Hx)
          as (b' & p' & Hp' & Hb' & Hbd' & Hbs' & Hbi').
        { apply is_attrset_id_scope. auto. }
        assert (b' = b).
        { apply (inv_uniq D st1 Hinv1 b' b _ _ Hb' Hbrec); auto.
          rewrite <- (seq_of_attrset b'), Hbi'. exact Hseq. }
        subst b'. rewrite Hbrec in Hb'. injection Hb' as <-.
        destruct (inv_rec D st1 Hinv1 id sym Hx) as (_ & _ & Hsid).
        rewrite Hp', <- Hname in Hsid. congruence. }
      exists id, (snd (id_register st1 name id)).
      split_post.
      * reflexivity.
      * apply register_inv;
          [exact Hinv1 | exact HD | exact Hl1 | exact Hnone | exact Hdyn
          | lia | lia | | | | ].
        -- intros _. exists b, p. repeat split; auto.
        -- intros Hx. congruence.
        -- rewrite Hsc. intros [Hx | Hx]; exfalso; revert Hx; apply Hset.
        -- pose proof (inv_class D st1 Hinv1 _ _ Hbrec Hbd) as Hcp. simpl in Hcp.
           rewrite (classify_setter name Hshape), Hsub, Hcp, Hsc.
           apply Z.eqb_neq in Hbs. rewrite Hbs. reflexivity.
      * simpl. apply lookup_insert_eq.
      * apply (grows_trans p name st st1); auto using register_grows. lia.
      * intros _. split; [exact Hdyn |].
        destruct (id_str st !! id) eqn:Hx; [| reflexivity].
        apply (g_rec D p st st1 Hg1) in Hx. congruence.
  - rewrite (intern_plain st name Hf Hshape).
    destruct (new_id_inv st name (plain_tag name)) as (Hinv2 & Hg2 & Hdyn); auto.
    { apply plain_tag_range. }
    { apply plain_tag_not_attrset. }
    { intros Ht c rest ->. apply (plain_tag_head c rest Ht). }
    { apply classify_plain, Hshape. }
    exists (fst (new_id st name (plain_tag name))),
           (snd (new_id st name (plain_tag name))).
    rewrite <- surjective_pairing.
    split_post; auto.
    + apply new_id_entry.
    + intros _. split; [exact Hdyn |].
      apply new_id_fresh_id; auto. apply plain_tag_range.
Qed.

(** The table after the registration of the entries [done] and
    what the loop of [Init_PreSymbol] makes of it. *)
Lemma preregister_spec rest : forall done st,
  (forall h id, sym_id st !! h = Some id
     <-> exists n, In (id, n) done /\ h = rb_str_hash n) ->
  (forall id sym, id_str st !! id = Some sym
     <-> In (id, rsym_str sym) done /\ rsym_id sym = id) ->
  NoDup (map fst (done ++ rest)) -> NoDup (map snd (done ++ rest)) ->
  (forall t n, In (t, n) (done ++ rest) -> D n /\ t <> 0) ->
  let st' := preregister rest st in
  last_id st' = last_id st
  /\ (forall h id, sym_id st' !! h = Some id
       <-> exists n, In (id, n) (done ++ rest) /\ h = rb_str_hash n)
  /\ (forall id sym, id_str st' !! id = Some sym
       <-> In (id, rsym_str sym) (done ++ rest) /\ rsym_id sym = id).
Proof.
  induction rest as [| [t n] rest IH]; intros done st Hs Hr Ht Hn HD.
  - simpl. rewrite app_nil_r. auto.
  - assert (Hin : In (t, n) (done ++ (t, n) :: rest)).
    { apply in_or_app. right. left. reflexivity. }
    destruct (HD t n Hin) as [HDn Ht0].
    cbn [preregister]. apply Z.eqb_neq in Ht0. rewrite Ht0.
    replace (done ++ (t, n) :: rest) with ((done ++ [(t, n)]) ++ rest) in *
      by (rewrite <- app_assoc; reflexivity).
    assert (Htok : forall i m, In (i, m) done -> i <> t).
    { intros i m Him ->. rewrite <- app_assoc in Ht. simpl in Ht.
      rewrite map_app in Ht. simpl in Ht.
      apply NoDup_app in Ht as (_ & Hdis & _). apply (Hdis t).
      - apply list_elem_of_In. apply (in_map fst done (t, m)), Him.
      - apply elem_of_cons. left. reflexivity. }
    assert (Hnam : forall i m, In (i, m) done -> m <> n).
    { intros i m Him ->. rewrite <- app_assoc in Hn. simpl in Hn.
      rewrite map_app in Hn. simpl in Hn.
      apply NoDup_app in Hn as (_ & Hdis & _). apply (Hdis n).
      - apply list_elem_of_In. apply (in_map snd done (i, n)), Him.
      - apply elem_of_cons. left. reflexivity. }
    assert (HDd : forall i m, In (i, m) done -> D m).
    { intros i m Him. apply (HD i m). apply in_or_app. left.
      apply in_or_app. left. exact Him. }
    assert (A1 : forall h id,
              sym_id (snd (id_register st n t)) !! h = Some id
              <-> exists m, In (id, m) (done ++ [(t, n)]) /\ h = rb_str_hash m).
    { simpl. intros h i. destruct (decide (rb_str_hash n = h)) as [<- | Hne].
      * rewrite lookup_insert_eq. split.
        -- intros [= <-]. exists n. split; [| reflexivity].
           apply in_or_app. right. left. reflexivity.
        -- intros (m & Him & Hhm). apply in_app_or in Him as [Him | Him].
           ++ apply (u_hash_inj D U) in Hhm; eauto.
              subst m. exfalso. eapply Hnam; eauto.
           ++ destruct Him as [[= -> ->] | []]. reflexivity.
      * rewrite lookup_insert_ne by exact Hne. rewrite Hs. split.
        -- intros (m & Him & Hhm). exists m. split; [| exact Hhm].
           apply in_or_app. left. exact Him.
        -- intros (m & Him & Hhm). apply in_app_or in Him as [Him | Him].
           ++ exists m. auto.
           ++ destruct Him as [[= -> ->] | []]. congruence. }
    assert (A2 : forall id sym,
              id_str (snd (id_register st n t)) !! id = Some sym
              <-> In (id, rsym_str sym) (done ++ [(t, n)]) /\ rsym_id sym = id).
    { simpl. intros i sym. destruct (decide (t = i)) as [<- | Hne].
      * rewrite lookup_insert_eq. split.
        -- intros [= <-]. simpl. split; [| reflexivity].
           apply in_or_app. right. left. reflexivity.
        -- intros [Him Hid]. apply in_app_or in Him as [Him | Him].
           ++ exfalso. eapply Htok; eauto.
           ++ destruct Him as [[= Hnm] | []]. destruct sym as [str i].
              simpl in *. congruence.
      * rewrite lookup_insert_ne by exact Hne. rewrite Hr. split.
        -- intros [Him Hid]. split; [| exact Hid].
           apply in_or_app. left. exact Him.
        -- intros [Him Hid]. apply in_app_or in Him as [Him | Him]; [auto |].
           destruct Him as [[= -> _] | []]. congruence. }
    destruct (IH (done ++ [(t, n)]) (snd (id_register st n t)) A1 A2 Ht Hn HD)
      as (K1 & K2 & K3).
    split; [exact K1 | auto].
Qed.

(** The table of [Init_PreSymbol] is consistent. *)
Lemma init_inv : table_inv D Init_PreSymbol.
Proof.
  pose proof last_token_range as Htok.
  destruct (preregister_spec rb_op_tbl []
              {| sym_id := ∅; id_str := ∅; last_id := 1000 |})
    as (Hlast & Hs & Hr).
  - intros h id. simpl. rewrite lookup_empty. split; [discriminate |].
    intros (n & [] & _).
  - intros id sym. simpl. rewrite lookup_empty. split; [discriminate |].
    intros [[] _].
  - apply (u_tokens_once D U).
  - apply (u_names_once D U).
  - intros t n Hin. simpl in Hin. split; [apply (u_ops D U t n Hin) |].
    pose proof (token_pos t n Hin). lia.
  - simpl in Hs, Hr, Hlast. fold Init_PreSymbol in Hs, Hr, Hlast.
    assert (Hop : forall id sym, id_str Init_PreSymbol !! id = Some sym ->
              0 < id <= tLAST_TOKEN).
    { intros id sym Hl. apply Hr in Hl as [Hin _]. eapply token_pos; eauto. }
    pose proof (u_ops D U) as Hops.
    split.
    + intros h id Hl. apply Hs in Hl as (n & Hin & ->).
      pose proof (token_pos id n Hin).
      split; [lia |]. exists n.
      split; [eauto |]. split; [reflexivity |].
      apply Hr. simpl. auto.
    + intros id sym Hl. apply Hr in Hl as [Hin Hid].
      split; [exact Hid |]. split; [eauto |].
      apply Hs. eauto.
    + rewrite Hlast. simpl. lia.
    + intros id sym Hl. apply Hop in Hl. split; [lia |].
      rewrite Hlast. simpl. rewrite seq_of_div.
      pose proof pow_shift_pos.
      apply Z.le_trans with id; [| lia].
      apply Z.div_le_upper_bound; nia.
    + intros id sym Hl _. apply Hr in Hl as [Hin _]. exact Hin.
    + intros id sym Hl Hgt. apply Hop in Hl. lia.
    + intros t n Hin. apply Hs. eauto.
    + intros id sym Hl Hat. apply is_attrset_id_scope in Hat as [Hgt _].
      apply Hop in Hl. lia.
    + intros id1 id2 s1 s2 Hl1 _ Hgt. apply Hop in Hl1. lia.
    + intros id c rest Hl Hgt. apply Hop in Hl. lia.
    + intros id sym Hl Hgt. apply Hop in Hl. lia.
Qed.

(** The table after [rb_id2str] is the table before it, or the table
    after the setter name of a record has been interned. *)
Lemma id2str_state st id r st' :
  rb_id2str st id = Some (r, st') ->
  st' = st
  \/ exists tag sym i, id_str st !! with_scope id tag = Some sym
       /\ rb_intern_str st (rsym_str sym ++ [chr "="]) = Some (i, st').
Proof.
  assert (Hd : forall tag sym, id_str st !! with_scope id tag = Some sym ->
            id2str_derive st id sym = Some (r, st') ->
            exists tag sym i, id_str st !! with_scope id tag = Some sym
              /\ rb_intern_str st (rsym_str sym ++ [chr "="]) = Some (i, st')).
  { intros tag sym Hl Hder. unfold id2str_derive in Hder.
    destruct (rb_intern_str st (rsym_str sym ++ [chr "="])) as [[i st2] |] eqn:Hi;
      [| discriminate].
    exists tag, sym, i. split; [exact Hl |].
    destruct (id_str st2 !! id); injection Hder as _ <-; exact Hi. }
  rewrite rb_id2str_eq.
  destruct (id_str st !! id); [intros [= _ <-]; auto |].
  destruct (is_attrset_id id); [| intros [= _ <-]; auto].
  destruct (id_str st !! with_scope id ID_LOCAL) eqn:Hl; [eauto |].
  destruct (negb _); [intros [= _ <-]; auto |].
  destruct (id_str st !! with_scope id ID_CONST) eqn:Hc; [eauto |].
  intros [= _ <-]; auto.
Qed.

Lemma intern_keeps st name id st1 :
  D name -> table_inv D st -> rb_intern_str st name = Some (id, st1) ->
  table_inv D st1
  /\ (forall h id, sym_id st !! h = Some id -> sym_id st1 !! h = Some id)
  /\ (forall id sym, id_str st !! id = Some sym -> id_str st1 !! id = Some sym)
  /\ last_id st <= last_id st1.
Proof.
  intros HD Hinv Hi.
  destruct (intern_inv (length name) st name eq_refl Hinv HD)
    as (id' & st1' & Hi' & Hinv' & _ & Hg & _).
  rewrite Hi in Hi'. injection Hi' as <- <-.
  split; [exact Hinv' |]. split; [apply Hg |]. split; apply Hg.
Qed.

(** One call keeps the table consistent and loses nothing. *)
Lemma step_inv st st' :
  step D st st' -> table_inv D st ->
  table_inv D st'
  /\ (forall h id, sym_id st !! h = Some id -> sym_id st' !! h = Some id)
  /\ (forall id sym, id_str st !! id = Some sym -> id_str st' !! id = Some sym)
  /\ last_id st <= last_id st'.
Proof.
  intros [st0 name id st1 HD Hi | st0 id r st1 Hset Hr] Hinv.
  - eapply intern_keeps; eauto.
  - destruct (id2str_state st0 id r st1 Hr) as [-> | (tag & sym & i & Hl & Hi)].
    + split; [exact Hinv |]. split; [auto |]. split; [auto | lia].
    + eapply intern_keeps; eauto.
Qed.

Lemma steps_inv st st' :
  rtc (step D) st st' -> table_inv D st ->
  table_inv D st'
  /\ (forall h id, sym_id st !! h = Some id -> sym_id st' !! h = Some id)
  /\ (forall id sym, id_str st !! id = Some sym -> id_str st' !! id = Some sym)
  /\ last_id st <= last_id st'.
Proof.
  induction 1 as [st | st st1 st2 Hstep _ IH]; intros Hinv.
  - split; [exact Hinv |]. split; [auto |]. split; [auto | lia].
  - destruct (step_inv st st1 Hstep Hinv) as (Hinv1 & H1 & H2 & H3).
    destruct (IH Hinv1) as (Hinv2 & K1 & K2 & K3).
    split; [exact Hinv2 |]. split; [auto |]. split; [auto | lia].
Qed.

(** Every table that the program reaches is consistent. *)
Lemma reachable_inv st : reachable D st -> table_inv D st.
Proof. intros Hr. apply (steps_inv Init_PreSymbol st Hr), init_inv. Qed.

End Invariant.

(** ** The interning table: statements *)

Section Registry.

Context {P : SymbolParams} {OK : SymbolParamsOK}.
Variable D : list UChar -> Prop.
Hypothesis U : universe D.

Lemma known_record st name id :
  table_inv D st -> D name -> sym_id st !! rb_str_hash name = Some id ->
  id <> 0 /\ id_str st !! id = Some {| rsym_str := name; rsym_id := id |}.
Proof.
  intros Hinv HD Hl.
  destruct (inv_hash D st Hinv _ _ Hl) as (Hne & s & Hs & Hhs & Hrec).
  apply (u_hash_inj D U) in Hhs; auto. subst s. auto.
Qed.

Lemma id2str_known st id sym :
  id_str st !! id = Some sym -> rb_id2str st id = Some (Some sym, st).
Proof. intros Hl. rewrite rb_id2str_eq, Hl. reflexivity. Qed.

(** C1, as the code has it.  In a table that the program reaches
    with names of a set [D] on which the hash has no collision and
    that holds no operator name followed by an equal sign,
    [rb_intern_str] returns on a name of [D] and [rb_id2str] answers
    the record of that name for the ID. *)
Theorem intern_roundtrip st name :
  reachable D st -> D name ->
  exists id st',
    rb_intern_str st name = Some (id, st')
    /\ rb_id2str st' id = Some (Some {| rsym_str := name; rsym_id := id |}, st')
    /\ intern_text st name = Some (Some name).
Proof.
  intros Hr HD. pose proof (reachable_inv D U st Hr) as Hinv.
  destruct (intern_inv D U (length name) st name eq_refl Hinv HD)
    as (id & st' & Hi & Hinv' & Hl & _).
  destruct (known_record st' name id Hinv' HD Hl) as [_ Hrec].
  exists id, st'. split; [exact Hi |].
  pose proof (id2str_known st' id _ Hrec) as Hs.
  split; [exact Hs |].
  unfold intern_text, id2str_text. rewrite Hi, Hs. reflexivity.
Qed.

(** C2, as the code has it.  Over names of a set [D] on which the
    hash has no collision and that holds no operator name followed by
    an equal sign: the ID of a name is the same at every later call,
    two names have two IDs, and two records have the same text exactly
    when they have the same ID. *)
Theorem intern_injective st s1 :
  reachable D st -> D s1 ->
  exists id1 st1,
    rb_intern_str st s1 = Some (id1, st1)
    /\ forall st2, rtc (step D) st1 st2 ->
       rb_intern_str st2 s1 = Some (id1, st2)
       /\ (forall s2, D s2 -> s2 <> s1 ->
           exists id2 st3, rb_intern_str st2 s2 = Some (id2, st3) /\ id2 <> id1)
       /\ (forall i1 i2 sym1 sym2,
           id_str st2 !! i1 = Some sym1 -> id_str st2 !! i2 = Some sym2 ->
           (rsym_str sym1 = rsym_str sym2 <-> i1 = i2)).
Proof.
  intros Hr HD. pose proof (reachable_inv D U st Hr) as Hinv.
  destruct (intern_inv D U (length s1) st s1 eq_refl Hinv HD)
    as (id1 & st1 & Hi & Hinv1 & Hl1 & _).
  exists id1, st1. split; [exact Hi |].
  intros st2 Hsteps.
  destruct (steps_inv D U st1 st2 Hsteps Hinv1) as (Hinv2 & Hkeep & _).
  pose proof (Hkeep _ _ Hl1) as Hl2.
  destruct (known_record st2 s1 id1 Hinv2 HD Hl2) as [Hne1 Hrec1].
  split; [apply intern_known; assumption |]. split.
  - intros s2 HD2 Hdiff.
    destruct (intern_inv D U (length s2) st2 s2 eq_refl Hinv2 HD2)
      as (id2 & st3 & Hi2 & Hinv3 & Hl3 & Hg & _).
    exists id2, st3. split; [exact Hi2 |]. intros ->.
    pose proof (g_hash D s2 st2 st3 Hg _ _ Hl2) as Hl1'.
    destruct (known_record st3 s1 id1 Hinv3 HD Hl1') as [_ Ha].
    destruct (known_record st3 s2 id1 Hinv3 HD2 Hl3) as [_ Hb].
    congruence.
  - intros i1 i2 sym1 sym2 Ha Hb. split.
    + intros Heq.
      destruct (inv_rec D st2 Hinv2 _ _ Ha) as (_ & _ & Ka).
      destruct (inv_rec D st2 Hinv2 _ _ Hb) as (_ & _ & Kb).
      rewrite Heq in Ka. congruence.
    + intros ->. congruence.
Qed.

(** C8, as the code has it.  In a table that the program reaches
    with names of [D]: the name of an operator token gets its
    reserved ID; a name of [D] that is no operator name gets an ID
    above [tLAST_TOKEN], with a sequence number above the floor 1000,
    that is the ID of no token; the counter starts at 1000, above
    every token, [new_id] takes the sequence number after it, and a
    new name gets an ID that no record had. *)
Theorem bootstrap_stable st :
  reachable D st ->
  (forall t n, In (t, n) rb_op_tbl -> rb_intern_str st n = Some (t, st))
  /\ (forall name, D name -> (forall t, ~ In (t, name) rb_op_tbl) ->
      exists id st', rb_intern_str st name = Some (id, st')
        /\ tLAST_TOKEN < id /\ 1000 < seq_of id
        /\ (forall t n, In (t, n) rb_op_tbl -> id <> t)
        /\ (fresh st name -> id_str st !! id = None)
        /\ last_id st <= last_id st')
  /\ last_id Init_PreSymbol = 1000
  /\ 1000 <= last_id st
  /\ (forall t n, In (t, n) rb_op_tbl -> 0 < t < 1000)
  /\ (forall name t, 0 <= t <= ID_SCOPE_MASK ->
      seq_of (fst (new_id st name t)) = last_id st + 1
      /\ last_id (snd (new_id st name t)) = last_id st + 1).
Proof.
  intros Hr. pose proof (reachable_inv D U st Hr) as Hinv.
  pose proof last_token_range as Htok.
  split; [| split; [| split; [| split; [| split]]]].
  - intros t n Hin. apply intern_known.
    + apply (inv_ops D st Hinv), Hin.
    + pose proof (token_pos D U t n Hin). lia.
  - intros name HD Hnop.
    destruct (intern_inv D U (length name) st name eq_refl Hinv HD)
      as (id & st' & Hi & Hinv' & Hl & Hg & Hnew).
    destruct (known_record st' name id Hinv' HD Hl) as [_ Hrec].
    assert (Hdyn : tLAST_TOKEN < id).
    { destruct (Z.lt_ge_cases tLAST_TOKEN id) as [? | Hle]; [assumption |].
      exfalso. apply (Hnop id).
      apply (inv_op D st' Hinv' id _ Hrec Hle). }
    exists id, st'. split; [exact Hi |]. split; [exact Hdyn |].
    split; [apply (inv_dyn D st' Hinv' id _ Hrec Hdyn) |].
    split; [| split].
    + intros t n Hin ->. pose proof (token_pos D U t n Hin). lia.
    + intros Hf. apply Hnew, Hf.
    + apply Hg.
  - assert (Hl : forall tbl st0, last_id (preregister tbl st0) = last_id st0).
    { induction tbl as [| [t n] tbl IH]; intros st0; [reflexivity |].
      cbn [preregister]. destruct (t =? 0); [reflexivity |].
      rewrite IH. reflexivity. }
    unfold Init_PreSymbol. rewrite Hl. reflexivity.
  - apply (inv_last D st Hinv).
  - intros t n Hin. pose proof (token_pos D U t n Hin). lia.
  - intros name t Ht. split; [now apply seq_of_new_id | reflexivity].
Qed.

End Registry.

(** ** The classifier: statements *)

Section Classifier.

Context {P : SymbolParams} {OK : SymbolParamsOK}.
Variable D : list UChar -> Prop.
Hypothesis U : universe D.

(** The record and the range of the ID of a name that is no operator
    name. *)
Lemma intern_dynamic st name :
  reachable D st -> D name -> (forall t, ~ In (t, name) rb_op_tbl) ->
  exists id st', rb_intern_str st name = Some (id, st')
    /\ table_inv D st'
    /\ id_str st' !! id = Some {| rsym_str := name; rsym_id := id |}
    /\ tLAST_TOKEN < id.
Proof.
  intros Hr HD Hnop. pose proof (reachable_inv D U st Hr) as Hinv.
  destruct (intern_inv D U (length name) st name eq_refl Hinv HD)
    as (id & st' & Hi & Hinv' & Hl & _).
  destruct (known_record D U st' name id Hinv' HD Hl) as [_ Hrec].
  exists id, st'. split; [exact Hi |]. split; [exact Hinv' |].
  split; [exact Hrec |].
  destruct (Z.lt_ge_cases tLAST_TOKEN id) as [? | Hle]; [assumption |].
  exfalso. apply (Hnop id). apply (inv_op D st' Hinv' id _ Hrec Hle).
Qed.

(** In a table that the program reaches, the scope of the ID of a
    name is the class of its text. *)
Lemma intern_scope st name :
  reachable D st -> D name -> (forall t, ~ In (t, name) rb_op_tbl) ->
  scope_of <$> intern_id st name = classify name.
Proof.
  intros Hr HD Hnop.
  destruct (intern_dynamic st name Hr HD Hnop)
    as (id & st' & Hi & Hinv' & Hrec & Hdyn).
  unfold intern_id. rewrite Hi.
  pose proof (inv_class D st' Hinv' id _ Hrec Hdyn) as Hc. simpl in Hc.
  rewrite Hc. reflexivity.
Qed.

Lemma scope_plain st name :
  classifiable D st name -> attr_shape name = false ->
  scope_of <$> intern_id st name = Some (plain_tag name).
Proof.
  intros [Hf | (Hr & HD & Hnop)] Hs.
  - unfold intern_id. rewrite (intern_plain st name Hf Hs).
    change (Some (scope_of (fst (new_id st name (plain_tag name))))
            = Some (plain_tag name)).
    f_equal. apply scope_of_new_id, plain_tag_range.
  - rewrite (intern_scope st name Hr HD Hnop). apply classify_plain, Hs.
Qed.

(** The ID of a setter name is made from the ID of its base. *)
Lemma scope_setter st c rest :
  let base := c :: rest in
  let name := base ++ [chr "="] in
  c <> chr "$" -> c <> chr "@" -> attr_shape base = false ->
  classifiable D st name -> classifiable D st base ->
  exists b st1 id st2,
    rb_intern_str st base = Some (b, st1)
    /\ rb_intern_str st name = Some (id, st2)
    /\ scope_of b = plain_tag base
    /\ id = rb_id_attrset b.
Proof.
  intros base name Hc1 Hc2 Hsb Hname Hbase.
  pose proof (attr_shape_intro c rest Hc1 Hc2) as Hshape. fold base name in Hshape.
  assert (Hsub : rb_str_substr name 0 (length name - 1) = base).
  { destruct (attr_shape_inv name Hshape) as (c' & rest' & Hn & _ & _ & Hs).
    rewrite Hs. unfold name in Hn. apply app_inj_tail in Hn as [Hn _].
    congruence. }
  destruct (rb_intern_str_total st base) as (b & st1 & Hb).
  assert (Hsc : scope_of b = plain_tag base).
  { pose proof (scope_plain st base Hbase Hsb) as Hp.
    unfold intern_id in Hp. rewrite Hb in Hp.
    change (Some (scope_of b) = Some (plain_tag base)) in Hp.
    injection Hp as Hp. exact Hp. }
  assert (Hna : is_attrset_id b = false).
  { apply is_attrset_id_false. rewrite Hsc. apply plain_tag_not_attrset. }
  assert (Hnew : fresh st name ->
            exists b st1 id st2,
              rb_intern_str st base = Some (b, st1)
              /\ rb_intern_str st name = Some (id, st2)
              /\ scope_of b = plain_tag base /\ id = rb_id_attrset b).
  { intros Hf. rewrite <- Hsub in Hb.
    destruct (intern_setter_new st name b st1 Hf Hshape Hb Hna) as (st2 & Hi & _).
    rewrite Hsub in Hb. exists b, st1, (rb_id_attrset b), st2. auto. }
  destruct Hname as [Hf | (Hr & HD & Hnop)]; [auto |].
  destruct (sym_id st !! rb_str_hash name) as [id |] eqn:Hl;
    [| apply Hnew, none_fresh, Hl].
  pose proof (reachable_inv D U st Hr) as Hinv.
  destruct (known_record D U st name id Hinv HD Hl) as [Hne Hrec].
  assert (Hdyn : tLAST_TOKEN < id).
  { destruct (Z.lt_ge_cases tLAST_TOKEN id) as [? | Hle]; [assumption |].
    exfalso. apply (Hnop id). apply (inv_op D st Hinv id _ Hrec Hle). }
  pose proof (inv_class D st Hinv id _ Hrec Hdyn) as Hc. simpl in Hc.
  rewrite (classify_setter name Hshape), Hsub, (classify_plain base Hsb) in Hc.
  pose proof (plain_tag_not_attrset base) as Hpa.
  apply Z.eqb_neq in Hpa. rewrite Hpa in Hc. injection Hc as Hc.
  destruct (inv_attr D st Hinv id _ Hrec)
    as (b' & p' & Hp' & Hb' & Hbd' & Hbs' & Hbi').
  { apply is_attrset_id_scope. auto. }
  simpl in Hp'. unfold name in Hp'. apply app_inj_tail in Hp' as [<- _].
  destruct (inv_rec D st Hinv b' _ Hb') as (_ & _ & Hlb). simpl in Hlb.
  destruct (inv_hash D st Hinv _ _ Hlb) as [Hb0 _].
  rewrite (intern_known st base b' Hlb Hb0) in Hb. injection Hb as <- <-.
  exists b', st, id, st.
  split; [now apply intern_known |]. split; [now apply intern_known |]. auto.
Qed.

(** C5, as the code has it.  For a name that begins with [@] or [@@]
    and for a name without prefix that does not take the attribute
    branch, the scope of the ID is Junk when the remainder holds a
    character that is no identifier character or begins with a digit,
    and the category of the prefix otherwise.  A name that begins with
    [$] is Global whatever follows, without a scan.  The names are the
    new ones of any table and, in a table that the program reaches,
    the names of [D] that are no operator names. *)
Theorem classify_scan st :
  (forall rest, classifiable D st (chr "$" :: rest) ->
     scope_of <$> intern_id st (chr "$" :: rest) = Some ID_GLOBAL)
  /\ (forall rest, classifiable D st (chr "@" :: chr "@" :: rest) ->
     scope_of <$> intern_id st (chr "@" :: chr "@" :: rest)
     = Some (if remainder_is_junk rest then ID_JUNK else ID_CLASS))
  /\ (forall rest, classifiable D st (chr "@" :: rest) -> hd 0 rest <> chr "@" ->
     scope_of <$> intern_id st (chr "@" :: rest)
     = Some (if remainder_is_junk rest then ID_JUNK else ID_INSTANCE))
  /\ (forall c rest, classifiable D st (c :: rest) ->
     c <> chr "$" -> c <> chr "@" -> attr_shape (c :: rest) = false ->
     scope_of <$> intern_id st (c :: rest)
     = Some (if remainder_is_junk (c :: rest) then ID_JUNK
             else if iswupper c then ID_CONST else ID_LOCAL)).
Proof.
  split; [| split; [| split]].
  - intros rest Hf. rewrite scope_plain; [| exact Hf |].
    + rewrite plain_tag_spec. reflexivity.
    + unfold attr_shape. apply andb_false_iff. left. apply andb_false_iff. right.
      reflexivity.
  - intros rest Hf. rewrite scope_plain; [| exact Hf |].
    + rewrite plain_tag_spec. reflexivity.
    + unfold attr_shape. apply andb_false_iff. right. reflexivity.
  - intros rest Hf Hhd. rewrite scope_plain; [| exact Hf |].
    + rewrite plain_tag_spec. change (chr "@" =? chr "$") with false.
      change (chr "@" =? chr "@") with true. cbv iota.
      destruct rest as [| c2 rest2]; [reflexivity |].
      simpl in Hhd. apply Z.eqb_neq in Hhd. rewrite Hhd. reflexivity.
    + unfold attr_shape. apply andb_false_iff. right. reflexivity.
  - intros c rest Hf Hc1 Hc2 Hs. rewrite scope_plain by assumption.
    rewrite plain_tag_spec.
    apply Z.eqb_neq in Hc1, Hc2. rewrite Hc1, Hc2. reflexivity.
Qed.

(** C4.  The scope of the IDs of the names [foo], [Foo], [@foo],
    [@@foo] and [$foo] is Local, Constant, Instance, Class and Global;
    the ID of the name [foo=] has the scope AttributeSetter and is made
    from the ID of [foo], which is Local, on the same sequence number.
    The names are new ones of any table or, in a table that the
    program reaches, names of [D]. *)
Theorem classify_examples st :
  Forall (classifiable D st)
    (map uchars ["foo"; "Foo"; "@foo"; "@@foo"; "$foo"; "foo="]%string) ->
  scope_of <$> intern_id st (uchars "foo") = Some ID_LOCAL
  /\ scope_of <$> intern_id st (uchars "Foo") = Some ID_CONST
  /\ scope_of <$> intern_id st (uchars "@foo") = Some ID_INSTANCE
  /\ scope_of <$> intern_id st (uchars "@@foo") = Some ID_CLASS
  /\ scope_of <$> intern_id st (uchars "$foo") = Some ID_GLOBAL
  /\ scope_of <$> intern_id st (uchars "foo=") = Some ID_ATTRSET
  /\ exists b st1 id st2,
       rb_intern_str st (uchars "foo") = Some (b, st1)
       /\ rb_intern_str st (uchars "foo=") = Some (id, st2)
       /\ scope_of b = ID_LOCAL
       /\ id = rb_id_attrset b
       /\ seq_of id = seq_of b
       /\ with_scope id ID_LOCAL = b.
Proof.
  intros Hf. cbn [map] in Hf. rewrite !Forall_cons in Hf.
  destruct Hf as (Hfoo & HFoo & Hi & Hc & Hg & Hset & _).
  assert (Hbase : exists b st1 id st2,
            rb_intern_str st (uchars "foo") = Some (b, st1)
            /\ rb_intern_str st (uchars "foo=") = Some (id, st2)
            /\ scope_of b = ID_LOCAL /\ id = rb_id_attrset b).
  { apply (scope_setter st (chr "f") (uchars "oo")); try assumption;
      try discriminate; reflexivity. }
  destruct Hbase as (b & st1 & id & st2 & Hb & Hid & Hsc & ->).
  repeat split; try (rewrite scope_plain by (assumption || reflexivity); reflexivity).
  - unfold intern_id. rewrite Hid. simpl. f_equal. apply scope_of_attrset.
  - exists b, st1, (rb_id_attrset b), st2.
    repeat split; try assumption.
    + apply seq_of_attrset.
    + rewrite with_scope_attrset, <- Hsc. apply with_scope_self.
Qed.

End Classifier.

(** ** The derivation path of [rb_id2str] *)

Section Derivation.

Context {P : SymbolParams} {OK : SymbolParamsOK}.
Variable D : list UChar -> Prop.
Hypothesis U : universe D.

(** The base record of a derivation is no operator token. *)
Lemma base_dynamic st b sym :
  table_inv D st -> id_str st !! b = Some sym ->
  D (rsym_str sym ++ [chr "="]) -> fresh st (rsym_str sym ++ [chr "="]) ->
  tLAST_TOKEN < b.
Proof.
  intros Hinv Hb HD Hf.
  destruct (Z.lt_ge_cases tLAST_TOKEN b) as [? | Hle]; [assumption |].
  exfalso.
  pose proof (inv_op D st Hinv b sym Hb Hle) as Hin.
  destruct (u_op_setter D U b _ Hin HD) as (t' & Hin').
  pose proof (inv_ops D st Hinv _ _ Hin') as Hl.
  rewrite (inv_fresh_none D st _ Hinv Hf) in Hl. discriminate.
Qed.

(** Lines 152-164 on a base record with the tag Local or Constant. *)
Lemma derive_base st id tag sym :
  table_inv D st -> is_attrset_id id = true ->
  tag = ID_LOCAL \/ tag = ID_CONST ->
  id_str st !! with_scope id tag = Some sym ->
  rsym_str sym <> [] ->
  D (rsym_str sym ++ [chr "="]) -> fresh st (rsym_str sym ++ [chr "="]) ->
  let name := rsym_str sym ++ [chr "="] in
  id2str_derive st id sym
  = Some (Some {| rsym_str := name; rsym_id := id |},
          snd (id_register st name id)).
Proof.
  intros Hinv Hat Htag Hb Hne HD Hf name.
  tag_bounds.
  assert (Hrange : 0 <= tag <= ID_SCOPE_MASK) by (destruct Htag; subst; lia).
  assert (Hna : tag <> ID_ATTRSET).
  { tag_facts. destruct Htag; subst; congruence. }
  apply is_attrset_id_scope in Hat as [Hid Hsc].
  set (b := with_scope id tag) in *.
  pose proof (base_dynamic st b sym Hinv Hb HD Hf) as Hbd.
  destruct (inv_rec D st Hinv b sym Hb) as (Hsid & HDt & Hl).
  destruct sym as [text b']. simpl in *. subst b'.
  destruct (inv_hash D st Hinv _ _ Hl) as [Hb0 _].
  assert (Hbs : scope_of b = tag) by now apply scope_of_with_scope.
  assert (Hnb : is_attrset_id b = false).
  { apply is_attrset_id_false. congruence. }
  destruct text as [| c rest]; [congruence |].
  destruct (inv_head D st Hinv b c rest Hb Hbd) as [Hc1 Hc2].
  { rewrite Hbs. exact Htag. }
  pose proof (attr_shape_intro c rest Hc1 Hc2) as Hshape.
  fold name in Hshape.
  assert (Hsub : rb_str_substr name 0 (length name - 1) = c :: rest).
  { destruct (attr_shape_inv name Hshape) as (c' & rest' & Hn & _ & _ & Hs).
    rewrite Hs. unfold name in Hn.
    apply app_inj_tail in Hn as [Hn _]. congruence. }
  assert (Hrec : rb_intern_str st (rb_str_substr name 0 (length name - 1))
                 = Some (b, st)).
  { rewrite Hsub. now apply intern_known. }
  assert (Hidb : rb_id_attrset b = id).
  { unfold rb_id_attrset. fold (with_scope b ID_ATTRSET).
    rewrite (with_scope_same_seq b id ID_ATTRSET).
    - rewrite <- Hsc. apply with_scope_self.
    - now apply seq_of_with_scope. }
  unfold id2str_derive. cbn [rsym_str]. fold name.
  rewrite (intern_setter st name b st Hf Hshape Hrec), Hnb, Hidb.
  cbn [negb]. cbv iota. unfold id_register at 1. cbn [id_str].
  rewrite lookup_insert_eq. reflexivity.
Qed.

(** C3, as the code has it.  [rb_id2str] returns on every ID.  On
    the ID of an attribute setter without a record, in a table that
    the program reaches: when a record with a text that is not empty
    stands under the same sequence number with the tag Local, or with
    the tag Constant and no record under the tag Local, and its
    setter name was not interned, the setter name is interned under
    the ID and its record is the answer; when no record stands under
    either tag the answer is the value 0 and the table is as
    before. *)
Theorem derive_setter st id :
  reachable D st -> is_attrset_id id = true -> id_str st !! id = None ->
  (exists r st', rb_id2str st id = Some (r, st'))
  /\ (forall tag sym,
      tag = ID_LOCAL
      \/ (tag = ID_CONST /\ id_str st !! with_scope id ID_LOCAL = None) ->
      id_str st !! with_scope id tag = Some sym ->
      rsym_str sym <> [] ->
      D (rsym_str sym ++ [chr "="]) -> fresh st (rsym_str sym ++ [chr "="]) ->
      let name := rsym_str sym ++ [chr "="] in
      exists st',
        rb_id2str st id = Some (Some {| rsym_str := name; rsym_id := id |}, st')
        /\ id_str st' !! id = Some {| rsym_str := name; rsym_id := id |}
        /\ sym_id st' !! rb_str_hash name = Some id)
  /\ (id_str st !! with_scope id ID_LOCAL = None ->
      id_str st !! with_scope id ID_CONST = None ->
      rb_id2str st id = Some (None, st)).
Proof.
  intros Hr Hat Hnone. pose proof (reachable_inv D U st Hr) as Hinv.
  split; [apply rb_id2str_total |]. split.
  - intros tag sym Htag Hb Hne HD Hf name.
    exists (snd (id_register st name id)).
    split; [| split; simpl; apply lookup_insert_eq].
    rewrite rb_id2str_eq, Hnone, Hat.
    destruct Htag as [-> | [-> Hloc]].
    + rewrite Hb. apply (derive_base st id ID_LOCAL sym); auto.
    + rewrite Hloc.
      assert (Hlocal : is_local_id (with_scope id ID_LOCAL) = true).
      { tag_bounds. apply is_local_id_scope.
        split; [| now apply scope_of_with_scope].
        apply seq_gt_floor. rewrite seq_of_with_scope by assumption.
        rewrite <- (seq_of_with_scope id ID_CONST) by assumption.
        apply (inv_dyn D st Hinv _ sym Hb).
        apply (base_dynamic st _ sym Hinv Hb HD Hf). }
      rewrite Hlocal, Hb. cbn [negb]. cbv iota.
      apply (derive_base st id ID_CONST sym); auto.
  - intros Hloc Hconst. rewrite rb_id2str_eq, Hnone, Hat, Hloc, Hconst.
    destruct (negb _); reflexivity.
Qed.

End Derivation.

(** ** The concrete parameters are admissible *)

Lemma ruby_params_ok last tbl hash :
  0 <= last < 1000 -> @SymbolParamsOK (ruby_params last tbl hash).
Proof.
  intros Hl. split; simpl; try lia.
  - reflexivity.
  - repeat constructor; lia.
  - compute_done.
Qed.

Lemma ops_params_ok : @SymbolParamsOK ops_params.
Proof. apply ruby_params_ok. lia. Qed.

Lemma plain_params_ok : @SymbolParamsOK plain_params.
Proof. apply ruby_params_ok. lia. Qed.

Lemma hash_inj_on_list {P : SymbolParams} (names : list (list UChar)) :
  NoDup (map rb_str_hash names) ->
  forall s1 s2, In s1 names -> In s2 names ->
    rb_str_hash s1 = rb_str_hash s2 -> s1 = s2.
Proof.
  induction names as [| a l IH]; simpl; intros Hnd s1 s2 H1 H2 Heq;
    [contradiction |].
  apply NoDup_cons in Hnd as [Hnotin Hnd].
  destruct H1 as [<- | H1], H2 as [<- | H2]; auto.
  - exfalso. apply Hnotin. rewrite Heq.
    apply list_elem_of_In, in_map, H2.
  - exfalso. apply Hnotin. rewrite <- Heq.
    apply list_elem_of_In, in_map, H1.
Qed.

Lemma sample_base p : in_sample (p ++ [chr "="]) -> in_sample p.
Proof.
  unfold in_sample. intros Hin.
  assert (Hrev : In (chr "=" :: rev p) (map (@rev Z) sample_names)).
  { replace (chr "=" :: rev p) with (rev (p ++ [chr "="]))
      by (rewrite rev_app_distr; reflexivity).
    apply in_map, Hin. }
  clear Hin. vm_compute in Hrev.
  repeat (destruct Hrev as [Hrev | Hrev];
          [ try discriminate Hrev;
            injection Hrev as Hrev;
            apply (f_equal (@rev Z)) in Hrev; rewrite rev_involutive in Hrev;
            subst p; apply list_elem_of_In; compute_done
          | ]).
  contradiction.
Qed.

Lemma sample_universe : @universe ops_params in_sample.
Proof.
  split.
  - apply (@hash_inj_on_list ops_params). compute_done.
  - apply sample_base.
  - intros t n Hin. unfold in_sample. apply list_elem_of_In.
    apply list_elem_of_In in Hin. revert t n Hin.
    assert (H : Forall (fun e => e.2 ∈ sample_names) (@rb_op_tbl ops_params))
      by compute_done.
    rewrite Forall_forall in H. intros t n Hin. apply (H (t, n) Hin).
  - intros t n Hin HD. exfalso. unfold in_sample in HD.
    apply list_elem_of_In in HD, Hin. revert HD.
    assert (H : Forall (fun e => e.2 ++ [chr "="] ∉ sample_names)
                  (@rb_op_tbl ops_params)) by compute_done.
    rewrite Forall_forall in H. apply (H (t, n) Hin).
  - compute_done.
  - compute_done.
  - compute_done.
Qed.

Lemma sample_table_eq :
  @rb_intern_str ops_params (@Init_PreSymbol ops_params) (uchars "foo")
  = Some (8008, sample_table).
Proof. vm_compute. reflexivity. Qed.

Lemma sample_table_reachable : @reachable ops_params in_sample sample_table.
Proof.
  apply rtc_once. apply (@step_intern ops_params in_sample _ (uchars "foo") 8008).
  - apply list_elem_of_In. compute_done.
  - apply sample_table_eq.
Qed.

(** ** The statements on concrete tables *)

Lemma in_sample_foo : in_sample (uchars "foo").
Proof. apply list_elem_of_In. compute_done. Qed.

Lemma in_sample_foo_setter : in_sample (uchars "foo" ++ [chr "="]).
Proof. apply list_elem_of_In. compute_done. Qed.

Lemma in_sample_Bar : in_sample (uchars "Bar").
Proof. apply list_elem_of_In. compute_done. Qed.

(** [intern_roundtrip] on the name [foo], from the table of the four
    operators. *)
Lemma intern_roundtrip_witness :
  @SymbolParamsOK ops_params
  /\ @universe ops_params in_sample
  /\ @reachable ops_params in_sample (@Init_PreSymbol ops_params)
  /\ in_sample (uchars "foo")
  /\ @intern_text ops_params (@Init_PreSymbol ops_params) (uchars "foo")
     = Some (Some (uchars "foo")).
Proof.
  split; [exact ops_params_ok |]. split; [exact sample_universe |].
  split; [apply rtc_refl |]. split; [exact in_sample_foo |].
  destruct (@intern_roundtrip ops_params ops_params_ok in_sample sample_universe
              (@Init_PreSymbol ops_params) (uchars "foo")
              (rtc_refl _ _) in_sample_foo)
    as (id & st' & _ & _ & H).
  exact H.
Defined.

(** C1 as the specification states it fails on a collision of the
    hash, where the second name gets the ID and the text of the first
    one, and on an operator name followed by an equal sign, whose ID
    under the layout of Ruby 1.9 is the ID of the operator [|] itself:
    the record of the operator is replaced. *)
Lemma intern_roundtrip_fails :
  @text_after seeded_params [[4995]] (uchars "aa") = Some (Some [4995])
  /\ [4995] <> uchars "aa"
  /\ seeded_hash [4995] = seeded_hash (uchars "aa")
  /\ @text_after ops_params [uchars "|="] (uchars "|")
     = Some (Some (uchars "|="))
  /\ uchars "|=" <> uchars "|".
Proof. repeat split; vm_compute; try reflexivity; discriminate. Qed.

(** [intern_injective] on the names [foo] and [Bar]. *)
Lemma intern_injective_witness :
  @SymbolParamsOK ops_params
  /\ @universe ops_params in_sample
  /\ @reachable ops_params in_sample (@Init_PreSymbol ops_params)
  /\ in_sample (uchars "foo")
  /\ exists id2 st3,
       @rb_intern_str ops_params sample_table (uchars "Bar") = Some (id2, st3)
       /\ id2 <> 8008.
Proof.
  split; [exact ops_params_ok |]. split; [exact sample_universe |].
  split; [apply rtc_refl |]. split; [exact in_sample_foo |].
  destruct (@intern_injective ops_params ops_params_ok in_sample sample_universe
              (@Init_PreSymbol ops_params) (uchars "foo")
              (rtc_refl _ _) in_sample_foo)
    as (id1 & st1 & Hi & H).
  rewrite sample_table_eq in Hi. injection Hi as <- <-.
  destruct (H sample_table (rtc_refl _ _)) as (_ & Hinj & _).
  apply (Hinj (uchars "Bar") in_sample_Bar). discriminate.
Defined.

(** C2 as the specification states it fails on two setter names
    whose hashes differ and whose bases have the same hash: the
    attribute branch gives both the ID made from the one ID of the
    bases.  It fails on the names [+=] and [*=] too: their hashes
    differ, and under the layout of Ruby 1.9 the attribute branch gives
    both the ID 44, the tokens of [+] and [*] having the same sequence
    bits. *)
Lemma intern_shares_id :
  @id_after seeded_params [] [4995; chr "="] = Some 8012
  /\ @id_after seeded_params [[4995; chr "="]] (uchars "aa=") = Some 8012
  /\ [4995; chr "="] <> uchars "aa="
  /\ seeded_hash [4995; chr "="] <> seeded_hash (uchars "aa=")
  /\ @id_after ops_params [] (uchars "+=") = Some 44
  /\ @id_after ops_params [uchars "+="] (uchars "*=") = Some 44
  /\ @id_after ops_params [uchars "+="; uchars "*="] (uchars "+=") = Some 44
  /\ uchars "+=" <> uchars "*="
  /\ numeral_hash (uchars "+=") <> numeral_hash (uchars "*=").
Proof. repeat split; vm_compute; try reflexivity; discriminate. Qed.

(** [derive_setter] on the setter ID of [foo], in the table where
    [foo] alone was interned. *)
Lemma derive_setter_witness :
  @reachable ops_params in_sample sample_table
  /\ @is_attrset_id ops_params 8012 = true
  /\ id_str sample_table !! 8012 = None
  /\ id_str sample_table !! @with_scope ops_params 8012 (@ID_LOCAL ops_params)
     = Some {| rsym_str := uchars "foo"; rsym_id := 8008 |}
  /\ @fresh ops_params sample_table (uchars "foo" ++ [chr "="])
  /\ @id2str_text ops_params sample_table 8012 = Some (Some (uchars "foo=")).
Proof.
  assert (Hl : id_str sample_table !! @with_scope ops_params 8012 (@ID_LOCAL ops_params)
               = Some {| rsym_str := uchars "foo"; rsym_id := 8008 |})
    by (vm_compute; reflexivity).
  assert (Hf : @fresh ops_params sample_table (uchars "foo" ++ [chr "="]))
    by (vm_compute; reflexivity).
  assert (Hn : id_str sample_table !! 8012 = None) by (vm_compute; reflexivity).
  split; [exact sample_table_reachable |]. split; [reflexivity |].
  split; [exact Hn |]. split; [exact Hl |]. split; [exact Hf |].
  destruct (@derive_setter ops_params ops_params_ok in_sample sample_universe
              sample_table 8012 sample_table_reachable eq_refl Hn)
    as (_ & Hd & _).
  destruct (Hd (@ID_LOCAL ops_params) _ (or_introl eq_refl) Hl)
    as (st' & Hr & _).
  - discriminate.
  - exact in_sample_foo_setter.
  - exact Hf.
  - unfold id2str_text. rewrite Hr. reflexivity.
Defined.

(** C3 as the specification states it fails on the empty name: under
    the layout of Ruby 1.9 its ID 8008 has the tag Local, and
    [rb_id2str] on the setter ID 8012 interns the one-character name
    [=], which gets another ID, and answers the value 0.  It fails on a
    collision of the hash too: the name [a] is Local under the ID 8008,
    its setter name [a=] was never interned and has the hash of the
    name of code unit 4959, so that the derivation registers nothing
    and [rb_id2str] answers the value 0. *)
Lemma derive_not_found :
  match @table_after plain_params [[]] with
  | Some st =>
    id_str st !! 8008 = Some {| rsym_str := []; rsym_id := 8008 |}
    /\ @scope_of plain_params 8008 = @ID_LOCAL plain_params
    /\ @is_local_id plain_params 8008 = true
    /\ @is_attrset_id plain_params 8012 = true
    /\ id_str st !! 8012 = None
    /\ @with_scope plain_params 8012 (@ID_LOCAL plain_params) = 8008
    /\ @id2str_text plain_params st 8012 = Some None
  | None => False
  end
  /\ match @table_after seeded_params [uchars "a"; [4959]] with
     | Some st =>
       id_str st !! 8008 = Some {| rsym_str := uchars "a"; rsym_id := 8008 |}
       /\ @is_local_id seeded_params 8008 = true
       /\ @is_attrset_id seeded_params 8012 = true
       /\ id_str st !! 8012 = None
       /\ @with_scope seeded_params 8012 (@ID_LOCAL seeded_params) = 8008
       /\ seeded_hash (uchars "a=") = seeded_hash [4959]
       /\ @id2str_text seeded_params st 8012 = Some None
     | None => False
     end.
Proof. split; vm_compute; repeat split; reflexivity. Qed.

Lemma sample_not_operator name :
  In name (map uchars ["foo"; "Bar"]%string) ->
  forall t, ~ In (t, name) (@rb_op_tbl ops_params).
Proof.
  intros Hin t Ht. vm_compute in Ht, Hin.
  repeat (destruct Hin as [<- | Hin];
          [repeat (destruct Ht as [Ht | Ht]; [discriminate Ht |]); exact Ht |]).
  exact Hin.
Qed.

(** [classify_examples] in the table where [foo] was interned: [foo]
    has an entry, the other names are new. *)
Lemma classify_examples_witness :
  Forall (@classifiable ops_params in_sample sample_table)
    (map uchars ["foo"; "Foo"; "@foo"; "@@foo"; "$foo"; "foo="]%string)
  /\ @scope_of ops_params <$> @intern_id ops_params sample_table (uchars "foo")
     = Some (@ID_LOCAL ops_params)
  /\ @scope_of ops_params <$> @intern_id ops_params sample_table (uchars "foo=")
     = Some (@ID_ATTRSET ops_params).
Proof.
  assert (Hf : Forall (@classifiable ops_params in_sample sample_table)
                 (map uchars ["foo"; "Foo"; "@foo"; "@@foo"; "$foo"; "foo="]%string)).
  { constructor.
    - right. split; [exact sample_table_reachable |].
      split; [exact in_sample_foo |].
      apply sample_not_operator. left. reflexivity.
    - repeat constructor; left; vm_compute; reflexivity. }
  split; [exact Hf |].
  destruct (@classify_examples ops_params ops_params_ok in_sample sample_universe
              sample_table Hf)
    as (Hfoo & _ & _ & _ & _ & Hset & _).
  split; [exact Hfoo | exact Hset].
Defined.

(** [classify_scan] on the new names [9a] and [@a b]. *)
Lemma classify_scan_witness :
  @SymbolParamsOK ops_params
  /\ @universe ops_params in_sample
  /\ @scope_of ops_params <$> @intern_id ops_params (@Init_PreSymbol ops_params)
       (uchars "9a") = Some (@ID_JUNK ops_params)
  /\ @scope_of ops_params <$> @intern_id ops_params (@Init_PreSymbol ops_params)
       (uchars "@a b") = Some (@ID_JUNK ops_params).
Proof.
  split; [exact ops_params_ok |]. split; [exact sample_universe |].
  destruct (@classify_scan ops_params ops_params_ok in_sample sample_universe
              (@Init_PreSymbol ops_params))
    as (_ & _ & Hat & Hplain).
  split.
  - apply (Hplain (chr "9") (uchars "a")); try discriminate;
      [left |]; vm_compute; reflexivity.
  - apply (Hat (uchars "a b")); [left; vm_compute; reflexivity | discriminate].
Defined.

(** C5 as the specification states it fails on the names that begin
    with a dollar sign,
    which are Global without a scan, and on the setter names, whose
    equal sign is no identifier character and whose scope is
    AttributeSetter. *)
Lemma classify_without_scan :
  @scope_of plain_params <$> @id_after plain_params [] (uchars "$1")
    = Some (@ID_GLOBAL plain_params)
  /\ @remainder_is_junk (uchars "1") = true
  /\ @scope_of plain_params <$> @id_after plain_params [] (uchars "$ x")
     = Some (@ID_GLOBAL plain_params)
  /\ @remainder_is_junk (uchars " x") = true
  /\ @ID_GLOBAL plain_params <> @ID_JUNK plain_params
  /\ @scope_of plain_params <$> @id_after plain_params [] (uchars "foo=")
     = Some (@ID_ATTRSET plain_params)
  /\ @remainder_is_junk (uchars "foo=") = true
  /\ @ID_ATTRSET plain_params <> @ID_JUNK plain_params.
Proof. repeat split; vm_compute; try reflexivity; discriminate. Qed.

(** [bootstrap_stable] from the table of the four operators. *)
Lemma bootstrap_stable_witness :
  @SymbolParamsOK ops_params
  /\ @universe ops_params in_sample
  /\ @reachable ops_params in_sample sample_table
  /\ @rb_intern_str ops_params sample_table (uchars "+") = Some (chr "+", sample_table)
  /\ exists id st',
       @rb_intern_str ops_params sample_table (uchars "Bar") = Some (id, st')
       /\ @tLAST_TOKEN ops_params < id.
Proof.
  split; [exact ops_params_ok |]. split; [exact sample_universe |].
  split; [exact sample_table_reachable |].
  destruct (@bootstrap_stable ops_params ops_params_ok in_sample sample_universe
              sample_table sample_table_reachable)
    as (Hop & Hdyn & _).
  split.
  - apply Hop. left. reflexivity.
  - destruct (Hdyn (uchars "Bar") in_sample_Bar) as (id & st' & Hi & Hgt & _).
    + intros t Hin. vm_compute in Hin.
      repeat (destruct Hin as [Hin | Hin]; [discriminate Hin |]). exact Hin.
    + exists id, st'. auto.
Defined.

(** C8 as the specification states it fails on an operator name
    followed by an equal sign: under the layout of Ruby 1.9 the
    attribute branch gives the new name [~=] the reserved ID 124 of the
    operator [|], and the record of that ID then holds the text [~=].
    It fails on a collision of the hash too: the name of code unit
    3235 gets the reserved ID of the operator [**]. *)
Lemma reserved_id_returned :
  @id_after ops_params [] (uchars "~=") = Some (chr "|")
  /\ In (chr "|", uchars "|") (@rb_op_tbl ops_params)
  /\ @fresh ops_params (@Init_PreSymbol ops_params) (uchars "~=")
  /\ @resolve_after ops_params [uchars "~="] (chr "|") = Some (Some (uchars "~="))
  /\ @id_after seeded_params [] [3235] = Some 321
  /\ In (321, uchars "**") (@rb_op_tbl seeded_params).
Proof.
  repeat split; try (vm_compute; reflexivity).
  - right. right. left. reflexivity.
  - left. reflexivity.
Qed.

(** [setter_id_of_base] on the new name [foo=], whose base [foo] gets
    the ID 8008. *)
Lemma setter_id_of_base_witness :
  @fresh ops_params (@Init_PreSymbol ops_params) (uchars "foo=")
  /\ attr_shape (uchars "foo=") = true
  /\ @rb_intern_str ops_params (@Init_PreSymbol ops_params)
       (rb_str_substr (uchars "foo=") 0 (length (uchars "foo=") - 1))
     = Some (8008, sample_table)
  /\ @is_attrset_id ops_params 8008 = false
  /\ @seq_of ops_params (@rb_id_attrset ops_params 8008) = @seq_of ops_params 8008
  /\ @with_scope ops_params (@rb_id_attrset ops_params 8008)
       (@scope_of ops_params 8008) = 8008.
Proof.
  assert (Hf : @fresh ops_params (@Init_PreSymbol ops_params) (uchars "foo="))
    by (vm_compute; reflexivity).
  split; [exact Hf |]. split; [reflexivity |].
  split; [exact sample_table_eq |]. split; [reflexivity |].
  destruct (@setter_id_of_base ops_params ops_params_ok (@Init_PreSymbol ops_params)
              (uchars "foo=") 8008 sample_table Hf eq_refl sample_table_eq eq_refl)
    as (_ & Hseq & _ & _ & Hback & _).
  split; [exact Hseq | exact Hback].
Defined.

(** ** New names, whatever the hash *)

Section NewNames.

Context {P : SymbolParams}.

(** A name without an entry gets its two entries: the labels
    [new_id] and [id_register] end in the two insertions of lines
    122-123. *)
Lemma intern_registers st name :
  fresh st name ->
  exists id st', rb_intern_str st name = Some (id, st')
    /\ sym_id st' !! rb_str_hash name = Some id
    /\ id_str st' !! id = Some {| rsym_str := name; rsym_id := id |}.
Proof.
  intros Hf. rewrite rb_intern_str_eq. cbv zeta.
  rewrite (fresh_lookup st name Hf).
  destruct (attr_shape name).
  - destruct (rb_intern_str_total st (rb_str_substr name 0 (length name - 1)))
      as (b & st1 & ->).
    destruct (negb (is_attrset_id b)); eexists _, _;
      (split; [reflexivity |]); simpl; split; apply lookup_insert_eq.
  - eexists _, _. split; [reflexivity |]. simpl. split; apply lookup_insert_eq.
Qed.

(** X1.  In every table, under every hash function and every layout
    of the IDs: a name for which the lookup of line 54 answers 0 is
    registered by [rb_intern_str], and [rb_id2str] on the new ID,
    hence [rb_name2sym] on the name, answers a record whose text
    ([rb_sym_to_s]) is the name and whose ID ([rb_sym2id]) is the new
    ID, without another change of the table. *)
Theorem intern_new_name_resolves st name :
  fresh st name ->
  exists id st' sym,
    rb_intern_str st name = Some (id, st')
    /\ rb_name2sym st name = Some (Some sym, st')
    /\ rb_id2str st' id = Some (Some sym, st')
    /\ rb_sym_to_s sym = name
    /\ rb_sym2id sym = id.
Proof.
  intros Hf. destruct (intern_registers st name Hf) as (id & st' & Hi & _ & Hrec).
  exists id, st', {| rsym_str := name; rsym_id := id |}.
  assert (Hr : rb_id2str st' id
               = Some (Some {| rsym_str := name; rsym_id := id |}, st')).
  { unfold rb_id2str. cbn [rb_id2str_fuel]. rewrite Hrec. reflexivity. }
  split; [exact Hi |]. split; [| split; [exact Hr | split; reflexivity]].
  unfold rb_name2sym. rewrite Hi. exact Hr.
Qed.

End NewNames.

Section AnyHash.

Context {P : SymbolParams} {OK : SymbolParamsOK}.



Lemma substr_last (p : list UChar) c :
  rb_str_substr (p ++ [c]) 0 (length (p ++ [c]) - 1) = p.
Proof.
  unfold rb_str_substr. rewrite drop_0, length_app. simpl.
  replace (length p + 1 - 1)%nat with (length p) by lia.
  apply take_app_length.
Qed.







End AnyHash.

(** ** The symbols of a table *)

Section Symbols.

Context {P : SymbolParams} {OK : SymbolParamsOK}.
Variable D : list UChar -> Prop.
Hypothesis U : universe D.

Lemma all_symbols_elem st sym :
  table_inv D st ->
  sym ∈ rsym_all_symbols st <-> id_str st !! rsym_id sym = Some sym.
Proof.
  intros Hinv. unfold rsym_all_symbols. rewrite list_elem_of_fmap. split.
  - intros ([i s] & -> & Hin). apply elem_of_map_to_list in Hin. simpl.
    destruct (inv_rec D st Hinv i s Hin) as [-> _]. exact Hin.
  - intros Hl. exists (rsym_id sym, sym). split; [reflexivity |].
    apply elem_of_map_to_list. exact Hl.
Qed.

Lemma all_symbols_nodup st :
  table_inv D st -> NoDup (rsym_all_symbols st).
Proof.
  intros Hinv. unfold rsym_all_symbols.
  apply NoDup_fmap_2_strong; [| apply NoDup_map_to_list].
  intros [i1 s1] [i2 s2] H1 H2. simpl. intros <-.
  apply elem_of_map_to_list in H1, H2.
  destruct (inv_rec D st Hinv i1 s1 H1) as [<- _].
  destruct (inv_rec D st Hinv i2 s1 H2) as [<- _]. reflexivity.
Qed.

(** X4.  A record of a table that the program reaches stays for
    good: it holds the ID it stands under, and in every table that
    later calls on names of [D] lead to, [rb_id2str] on the ID answers
    this record and [rb_intern_str] on its text answers the ID, both
    without a change of the table. *)
Theorem symbol_stable st id sym st2 :
  reachable D st -> id_str st !! id = Some sym -> rtc (step D) st st2 ->
  rb_sym2id sym = id
  /\ rb_id2str st2 id = Some (Some sym, st2)
  /\ rb_intern_str st2 (rb_sym_to_s sym) = Some (id, st2).
Proof.
  intros Hr Hl Hsteps. pose proof (reachable_inv D U st Hr) as Hinv.
  destruct (steps_inv D U st st2 Hsteps Hinv) as (Hinv2 & _ & Hkeep & _).
  pose proof (Hkeep _ _ Hl) as Hl2.
  destruct (inv_rec D st2 Hinv2 id sym Hl2) as (Hid & HD & Hh).
  destruct (inv_hash D st2 Hinv2 _ _ Hh) as [Hne _].
  split; [exact Hid |]. split.
  - apply id2str_known, Hl2.
  - apply intern_known; assumption.
Qed.

(** X5.  The two ways to the setter of a name agree.  For a record
    of a table that the program reaches whose ID is Local or Constant
    and whose text is not empty, when the setter name was not interned:
    [rb_intern_str] on the setter name returns [rb_id_attrset] of the
    ID, and [rb_id2str] on that ID, which has no record, answers the
    record of the setter name; the two calls leave the same table. *)
Theorem derive_agrees_with_intern st b text :
  let name := text ++ [chr "="] in
  let id := rb_id_attrset b in
  reachable D st ->
  id_str st !! b = Some {| rsym_str := text; rsym_id := b |} ->
  tLAST_TOKEN < b ->
  scope_of b = ID_LOCAL \/ scope_of b = ID_CONST ->
  text <> [] -> D name -> fresh st name ->
  id_str st !! id = None
  /\ exists st',
       rb_intern_str st name = Some (id, st')
       /\ rb_id2str st id = Some (Some {| rsym_str := name; rsym_id := id |}, st').
Proof.
  intros name id Hr Hb Hdyn Hsc Hne HD Hf.
  pose proof (reachable_inv D U st Hr) as Hinv.
  tag_bounds.
  assert (Htag : ID_LOCAL <> ID_ATTRSET /\ ID_CONST <> ID_ATTRSET
                 /\ ID_LOCAL <> ID_CONST).
  { tag_facts. repeat split; congruence. }
  destruct Htag as (Hla & Hca & Hlc).
  assert (Hbs : scope_of b <> ID_ATTRSET) by (destruct Hsc; congruence).
  assert (Hseq : seq_of id = seq_of b) by apply seq_of_attrset.
  assert (Hidd : tLAST_TOKEN < id).
  { apply seq_gt_floor. rewrite Hseq.
    apply (inv_dyn D st Hinv b _ Hb Hdyn). }
  assert (Hat : is_attrset_id id = true).
  { apply is_attrset_id_scope. split; [exact Hidd | apply scope_of_attrset]. }
  assert (Hwb : forall tag, scope_of b = tag -> with_scope id tag = b).
  { intros tag <-. unfold id. rewrite with_scope_attrset. apply with_scope_self. }
  assert (Hnone : id_str st !! id = None).
  { destruct (id_str st !! id) as [sym |] eqn:Hl; [exfalso | reflexivity].
    destruct (inv_attr D st Hinv id sym Hl Hat)
      as (b0 & p & Hp & Hb0 & Hd0 & Hs0 & Hi0).
    assert (b0 = b).
    { apply (inv_uniq D st Hinv b0 b _ _ Hb0 Hb); auto.
      rewrite <- Hseq, <- Hi0. symmetry. apply seq_of_attrset. }
    subst b0. rewrite Hb in Hb0. injection Hb0 as <-.
    destruct (inv_rec D st Hinv id sym Hl) as (_ & _ & Hh).
    rewrite Hp in Hh. fold name in Hh.
    rewrite (inv_fresh_none D st _ Hinv Hf) in Hh. discriminate. }
  split; [exact Hnone |].
  destruct (inv_rec D st Hinv b _ Hb) as (_ & _ & Hh). simpl in Hh.
  destruct (inv_hash D st Hinv _ _ Hh) as [Hb0 _].
  destruct text as [| c rest]; [congruence |].
  destruct (inv_head D st Hinv b c rest Hb Hdyn Hsc) as [Hc1 Hc2].
  pose proof (attr_shape_intro c rest Hc1 Hc2) as Hshape. fold name in Hshape.
  assert (Hrec : rb_intern_str st (rb_str_substr name 0 (length name - 1))
                 = Some (b, st)).
  { unfold name. rewrite substr_last. now apply intern_known. }
  exists (snd (id_register st name id)). split.
  - rewrite (intern_setter st name b st Hf Hshape Hrec).
    rewrite (is_attrset_id_false b Hbs). reflexivity.
  - rewrite rb_id2str_eq, Hnone, Hat.
    destruct Hsc as [Hsc | Hsc].
    + rewrite (Hwb _ Hsc), Hb.
      apply (derive_base D U st id ID_LOCAL); auto.
      rewrite (Hwb _ Hsc). exact Hb.
    + assert (Hloc : id_str st !! with_scope id ID_LOCAL = None).
      { destruct (id_str st !! with_scope id ID_LOCAL) as [sym |] eqn:Hl;
          [exfalso | reflexivity].
        assert (Hs1 : scope_of (with_scope id ID_LOCAL) = ID_LOCAL)
          by now apply scope_of_with_scope.
        assert (Hq1 : seq_of (with_scope id ID_LOCAL) = seq_of b).
        { rewrite seq_of_with_scope by assumption. exact Hseq. }
        assert (with_scope id ID_LOCAL = b).
        { apply (inv_uniq D st Hinv _ b _ _ Hl Hb); auto; try congruence.
          apply seq_gt_floor. rewrite Hq1.
          apply (inv_dyn D st Hinv b _ Hb Hdyn). }
        congruence. }
      rewrite Hloc.
      assert (Hlocal : is_local_id (with_scope id ID_LOCAL) = true).
      { apply is_local_id_scope.
        split; [| now apply scope_of_with_scope].
        apply seq_gt_floor. rewrite seq_of_with_scope by assumption.
        rewrite Hseq. apply (inv_dyn D st Hinv b _ Hb Hdyn). }
      rewrite Hlocal. cbn [negb]. cbv iota.
      rewrite (Hwb _ Hsc), Hb.
      apply (derive_base D U st id ID_CONST); auto.
      rewrite (Hwb _ Hsc). exact Hb.
Qed.

(** The class of a name that ends in equal signs, by their number. *)
Lemma classify_equal_signs c rest k :
  c <> chr "$" -> c <> chr "@" -> attr_shape (c :: rest) = false ->
  classify ((c :: rest) ++ repeat (chr "=") (S k))
  = Some (if Nat.even k then ID_ATTRSET else ID_JUNK).
Proof.
  intros Hc1 Hc2 Hs.
  assert (Hja : ID_JUNK <> ID_ATTRSET) by (tag_facts; congruence).
  induction k as [| k IH].
  - cbn [repeat Nat.even].
    rewrite (classify_setter _ (attr_shape_intro c rest Hc1 Hc2)).
    rewrite substr_last, (classify_plain _ Hs).
    pose proof (plain_tag_not_attrset (c :: rest)) as Hp.
    apply Z.eqb_neq in Hp. rewrite Hp. reflexivity.
  - replace ((c :: rest) ++ repeat (chr "=") (S (S k)))
      with ((c :: rest ++ repeat (chr "=") (S k)) ++ [chr "="]).
    2: { change (repeat (chr "=") (S (S k)))
           with (chr "=" :: repeat (chr "=") (S k)).
         rewrite (repeat_cons (S k)), app_assoc. reflexivity. }
    rewrite (classify_setter _ (attr_shape_intro c _ Hc1 Hc2)).
    rewrite substr_last.
    change (c :: rest ++ repeat (chr "=") (S k))
      with ((c :: rest) ++ repeat (chr "=") (S k)).
    rewrite IH. rewrite Nat.even_succ, <- Nat.negb_even.
    destruct (Nat.even k); cbn [negb].
    + rewrite Z.eqb_refl. reflexivity.
    + apply Z.eqb_neq in Hja. rewrite Hja. reflexivity.
Qed.

(** X6.  Equal signs at the end of a name alternate.  For a name
    without prefix that does not end in an equal sign, followed by one
    or more equal signs: the ID is an AttributeSetter when the number
    of equal signs is odd and Junk when it is even, since a base that
    is an attribute setter itself sends the name through the scan
    (line 93), which stops at the equal sign.  In a table that the
    program reaches, for a name of [D] that is no operator name. *)
Theorem equal_signs_alternate st c rest k :
  let name := (c :: rest) ++ repeat (chr "=") (S k) in
  c <> chr "$" -> c <> chr "@" -> attr_shape (c :: rest) = false ->
  reachable D st -> D name -> (forall t, ~ In (t, name) rb_op_tbl) ->
  scope_of <$> intern_id st name
  = Some (if Nat.even k then ID_ATTRSET else ID_JUNK).
Proof.
  intros name Hc1 Hc2 Hs Hr HD Hnop.
  rewrite (intern_scope D U st name Hr HD Hnop).
  now apply classify_equal_signs.
Qed.


(** X8.  In a table that the program reaches, [rsym_all_symbols]
    lists no text twice and no ID twice; a name of [D] is the text of
    a listed symbol exactly when it has an entry, and the symbol of
    every operator token is listed. *)
Theorem all_symbols_distinct st :
  reachable D st ->
  NoDup (rb_sym_to_s <$> rsym_all_symbols st)
  /\ NoDup (rb_sym2id <$> rsym_all_symbols st)
  /\ (forall name, D name ->
      name ∈ rb_sym_to_s <$> rsym_all_symbols st <-> ~ fresh st name)
  /\ (forall t n, In (t, n) rb_op_tbl -> op_symbol (t, n) ∈ rsym_all_symbols st).
Proof.
  intros Hr. pose proof (reachable_inv D U st Hr) as Hinv.
  split; [| split; [| split]].
  - apply NoDup_fmap_2_strong; [| apply all_symbols_nodup, Hinv].
    intros s1 s2 H1 H2 Heq. unfold rb_sym_to_s in Heq.
    apply (all_symbols_elem st _ Hinv) in H1, H2.
    destruct (inv_rec D st Hinv _ _ H1) as (_ & _ & K1).
    destruct (inv_rec D st Hinv _ _ H2) as (_ & _ & K2).
    rewrite Heq in K1. rewrite K1 in K2. injection K2 as K2.
    rewrite K2 in H1. congruence.
  - apply NoDup_fmap_2_strong; [| apply all_symbols_nodup, Hinv].
    intros s1 s2 H1 H2 Heq. unfold rb_sym2id in Heq.
    apply (all_symbols_elem st _ Hinv) in H1, H2.
    rewrite Heq in H1. congruence.
  - intros name HD. rewrite list_elem_of_fmap. split.
    + intros (sym & -> & Hin) Hf. unfold rb_sym_to_s in Hf.
      apply (all_symbols_elem st _ Hinv) in Hin.
      destruct (inv_rec D st Hinv _ _ Hin) as (_ & _ & K).
      rewrite (inv_fresh_none D st _ Hinv Hf) in K. discriminate.
    + intros Hnf.
      destruct (sym_id st !! rb_str_hash name) as [id |] eqn:Hl.
      * destruct (known_record D U st name id Hinv HD Hl) as [_ Hrec].
        exists {| rsym_str := name; rsym_id := id |}. split; [reflexivity |].
        apply (all_symbols_elem st _ Hinv). exact Hrec.
      * elim Hnf. apply none_fresh, Hl.
  - intros t n Hin. apply (all_symbols_elem st _ Hinv). simpl.
    pose proof (inv_ops D st Hinv t n Hin) as Hl.
    apply (known_record D U st n t Hinv (u_ops D U t n Hin) Hl).
Qed.

(** X9.  In a table that the program reaches, a call of
    [rb_intern_str] on a name of [D] that has an entry leaves the list
    of [rsym_all_symbols] as it is, and a call on a new name outside
    the attribute branch adds the record of the name and nothing
    else. *)
Theorem all_symbols_grow st name id st' :
  reachable D st -> D name ->
  rb_intern_str st name = Some (id, st') ->
  (~ fresh st name -> rsym_all_symbols st' = rsym_all_symbols st)
  /\ (fresh st name -> attr_shape name = false ->
      rsym_all_symbols st'
      ≡ₚ {| rsym_str := name; rsym_id := id |} :: rsym_all_symbols st).
Proof.
  intros Hr HD Hi. pose proof (reachable_inv D U st Hr) as Hinv.
  split.
  - intros Hnf.
    destruct (sym_id st !! rb_str_hash name) as [i |] eqn:Hl;
      [| elim Hnf; apply none_fresh, Hl].
    destruct (inv_hash D st Hinv _ _ Hl) as [Hne _].
    rewrite (intern_known st name i Hl Hne) in Hi. injection Hi as _ <-.
    reflexivity.
  - intros Hf Hs.
    destruct (intern_inv D U (length name) st name eq_refl Hinv HD)
      as (id' & st1 & Hi' & _ & _ & _ & Hnew).
    rewrite Hi in Hi'. injection Hi' as <- <-.
    destruct (Hnew Hf) as [_ Hnone].
    rewrite (intern_plain st name Hf Hs) in Hi.
    injection Hi as Hid Hst. subst st'.
    unfold rsym_all_symbols. cbn [id_str new_id id_register].
    rewrite Hid.
    rewrite (map_to_list_insert (id_str st) id) by exact Hnone.
    reflexivity.
Qed.

End Symbols.

(** ** The arms of the escaper *)

Ltac chr_values :=
  repeat match goal with
         | |- context [chr ?a] =>
           let v := eval vm_compute in (chr a) in change (chr a) with v
         | H : context [chr ?a] |- _ =>
           let v := eval vm_compute in (chr a) in change (chr a) with v in H
         end.

Ltac eqb_cases :=
  repeat match goal with
         | |- context [Z.eqb ?x ?k] =>
           is_var x;
           let E := fresh "E" in
           destruct (Z.eqb_spec x k) as [E | E]; [subst x |]
         end.

Ltac bool_cases :=
  repeat match goal with
         | |- context [isprint ?x] => is_var x; destruct (isprint x)
         | |- context [existsb ?f ?r] => is_var r; destruct (existsb f r)
         end.

Ltac in_list := repeat first [left; reflexivity | right].

Ltac not_in_list H :=
  repeat (destruct H as [H | H]; [congruence |]); exact H.

Section EscaperArms.

Lemma span_len_le p (l : list UChar) : (span_len p l <= length l)%nat.
Proof. induction l as [| c l IH]; simpl; [lia |]. destruct (p c); lia. Qed.

Lemma span_len_app p (l1 l2 : list UChar) :
  forallb p l1 = true ->
  span_len p (l1 ++ l2) = (length l1 + span_len p l2)%nat.
Proof.
  induction l1 as [| c l1 IH]; simpl; [reflexivity |].
  intros H. apply andb_prop in H as [-> H]. rewrite IH by exact H. reflexivity.
Qed.

Lemma span_len_forallb p (l : list UChar) :
  forallb p (take (span_len p l) l) = true.
Proof.
  induction l as [| c l IH]; simpl; [reflexivity |].
  destruct (p c) eqn:E; simpl; [rewrite E; exact IH | reflexivity].
Qed.

Lemma span_len_all p (l : list UChar) :
  span_len p l = length l <-> forallb p l = true.
Proof.
  split.
  - intros H. pose proof (span_len_forallb p l) as Hf.
    rewrite H, firstn_all in Hf. exact Hf.
  - intros H. pose proof (span_len_app p l [] H) as Hs.
    rewrite app_nil_r in Hs. simpl in Hs. lia.
Qed.

Lemma existsb_negb_forallb (p : UChar -> bool) l :
  existsb (fun c => negb (p c)) l = negb (forallb p l).
Proof.
  induction l as [| c l IH]; simpl; [reflexivity |].
  rewrite IH. destruct (p c); reflexivity.
Qed.

Lemma ident_start_identchar c : ident_start c = true -> is_identchar c = true.
Proof.
  unfold ident_start, is_identchar, isalnum.
  destruct (c =? chr "_"), (isalpha c), (negb (isascii c)); simpl; auto;
    try discriminate; rewrite ?orb_true_r; auto.
Qed.

(** The code under the label [id:] with the test of line 523, on the
    text that is left at [pos]. *)
Lemma id_tail_spec chars pos localid :
  (pos <= length chars)%nat ->
  match escaped_id_tail chars pos localid with
  | Bail escape => escape
  | Break escape p => if (p <? length chars)%nat then true else escape
  end
  = match drop pos chars with
    | [] => true
    | c :: _ =>
      negb (ident_start c)
      || match after_ident (drop pos chars) with
         | [] => false
         | [x] => negb (localid && ((x =? chr "!") || (x =? chr "?") || (x =? chr "=")))
         | _ => true
         end
    end.
Proof.
  intros Hpos. unfold escaped_id_tail, scan_while, after_ident.
  rewrite !char_at_drop.
  pose proof (length_drop chars pos) as Hlen.
  rewrite <- drop_drop.
  destruct (drop pos chars) as [| c r'] eqn:Hr.
  { simpl in Hlen. destruct (Nat.leb_spec (length chars) pos); [reflexivity | lia]. }
  simpl in Hlen.
  destruct (Nat.leb_spec (length chars) pos); [lia |].
  cbn [hd orb].
  replace (negb (c =? chr "_") && negb (isalpha c) && isascii c)
    with (negb (ident_start c)).
  2: { unfold ident_start.
       destruct (c =? chr "_"), (isalpha c), (isascii c); reflexivity. }
  destruct (ident_start c); cbn [negb orb]; [| reflexivity].
  set (k := span_len is_identchar (c :: r')).
  pose proof (span_len_le is_identchar (c :: r')) as Hk. fold k in Hk.
  simpl length in Hk.
  pose proof (length_drop (c :: r') k) as Hlk. simpl length in Hlk.
  destruct (drop k (c :: r')) as [| x [| y t]]; simpl in Hlk; cbn [hd].
  - destruct (Nat.ltb_spec (pos + k) (length chars)); [lia |].
    rewrite andb_false_r. cbn [andb].
    destruct (Nat.ltb_spec (pos + k) (length chars)); [lia | reflexivity].
  - destruct (Nat.ltb_spec (pos + k) (length chars)); [| lia].
    rewrite andb_true_r.
    destruct (localid && ((x =? chr "!") || (x =? chr "?") || (x =? chr "=")));
      cbn [negb].
    + destruct (Nat.ltb_spec (S (pos + k)) (length chars)); [lia | reflexivity].
    + destruct (Nat.ltb_spec (pos + k) (length chars)); [reflexivity | lia].
  - destruct (localid && (pos + k <? length chars)%nat && _).
    + destruct (Nat.ltb_spec (S (pos + k)) (length chars)); [reflexivity | lia].
    + destruct (Nat.ltb_spec (pos + k) (length chars)); [reflexivity | lia].
Qed.

Lemma after_ident_app body suffix :
  forallb is_identchar body = true ->
  (match suffix with c :: _ => is_identchar c = false | [] => True end) ->
  after_ident (body ++ suffix) = suffix.
Proof.
  intros Hb Hs. unfold after_ident.
  rewrite (span_len_app is_identchar body suffix Hb).
  destruct suffix as [| c t]; simpl.
  - rewrite Nat.add_0_r, app_nil_r. apply drop_all.
  - rewrite Hs, Nat.add_0_r. apply drop_app_length.
Qed.

Lemma after_ident_split r :
  r = take (span_len is_identchar r) r ++ after_ident r.
Proof. unfold after_ident. symmetry. apply take_drop. Qed.

(** [sym_should_be_escaped] on a text that is not empty: the loop of
    line 370, then the [switch] and the test of line 523. *)
Lemma escaped_eq c rest :
  sym_should_be_escaped (c :: rest)
  = negb (forallb isprint (c :: rest))
    || match escaped_switch (c :: rest) with
       | Bail escape => escape
       | Break escape pos =>
         if (pos <? length (c :: rest))%nat then true else escape
       end.
Proof.
  unfold sym_should_be_escaped. rewrite existsb_negb_forallb.
  change (length (c :: rest) =? 0)%nat with false. cbv iota.
  destruct (negb (forallb isprint (c :: rest))); reflexivity.
Qed.

(** The shape that the code under the label [id:] accepts. *)
Lemma ident_shape_iff localid r :
  match r with
  | [] => true
  | c :: _ =>
    negb (ident_start c)
    || match after_ident r with
       | [] => false
       | [x] => negb (localid && ((x =? chr "!") || (x =? chr "?") || (x =? chr "=")))
       | _ => true
       end
  end = false
  <-> exists body suffix, r = body ++ suffix /\ is_identifier body = true
        /\ (suffix = [] \/ (localid = true /\ In suffix method_suffixes)).
Proof.
  split.
  - destruct r as [| c r']; [discriminate |].
    destruct (ident_start c) eqn:Hc; [| discriminate]. cbn [negb orb].
    pose proof (ident_start_identchar c Hc) as Hic.
    pose proof (after_ident_split (c :: r')) as Hsplit.
    pose proof (span_len_forallb is_identchar (c :: r')) as Hall.
    cbn [span_len] in Hsplit, Hall. rewrite Hic in Hsplit, Hall.
    cbn [take forallb] in Hsplit, Hall. rewrite Hic in Hall. cbn [andb] in Hall.
    intros H.
    exists (c :: take (span_len is_identchar r') r'), (after_ident (c :: r')).
    split; [exact Hsplit |]. split; [simpl; rewrite Hc, Hall; reflexivity |].
    destruct (after_ident (c :: r')) as [| x [| y t]]; [auto | | discriminate].
    right. apply negb_false_iff, andb_prop in H as [-> H].
    split; [reflexivity |].
    unfold method_suffixes. cbn [map uchars list_ascii_of_string].
    apply orb_prop in H as [H | H]; [apply orb_prop in H as [H | H] |];
      apply Z.eqb_eq in H; subst x; simpl; auto.
  - intros (body & suffix & -> & Hid & Hsuf).
    destruct body as [| c b']; [discriminate |].
    cbn [is_identifier] in Hid. apply andb_prop in Hid as [Hc Hb].
    cbn [app]. rewrite Hc. cbn [negb orb].
    change (c :: b' ++ suffix) with ((c :: b') ++ suffix).
    rewrite after_ident_app.
    + destruct Hsuf as [-> | [-> Hin]]; [reflexivity |].
      unfold method_suffixes in Hin. simpl in Hin.
      destruct Hin as [<- | [<- | [<- | []]]]; reflexivity.
    + simpl. rewrite (ident_start_identchar c Hc), Hb. reflexivity.
    + destruct Hsuf as [-> | [_ Hin]]; [exact I |].
      unfold method_suffixes in Hin. simpl in Hin.
      destruct Hin as [<- | [<- | [<- | []]]]; reflexivity.
Qed.

Lemma is_identifier_shape r :
  is_identifier r = true
  <-> exists body suffix, r = body ++ suffix /\ is_identifier body = true
        /\ (suffix = [] \/ (false = true /\ In suffix method_suffixes)).
Proof.
  split.
  - intros H. exists r, []. rewrite app_nil_r. auto.
  - intros (body & suffix & -> & H & [-> | [? _]]); [| discriminate].
    rewrite app_nil_r. exact H.
Qed.

(** The [switch] on a first character without an arm of its own. *)
Lemma switch_default c rest :
  ~ In c switch_heads -> c <> 0 ->
  escaped_switch (c :: rest) = escaped_id_tail (c :: rest) 0 (negb (isupper c)).
Proof.
  intros Hc H0. unfold escaped_switch.
  change (char_at (c :: rest) 0) with c.
  unfold switch_heads in Hc. cbn [map] in Hc. cbn [existsb map].
  repeat match goal with
         | |- context [c =? ?k] =>
           replace (c =? k) with false
             by (symmetry; apply Z.eqb_neq; intros ->; apply Hc; simpl; tauto
                 || (symmetry; apply Z.eqb_neq; exact H0))
         end.
  reflexivity.
Qed.

(** The arm of the dollar sign, lines 389-395. *)
Lemma switch_dollar rest :
  escaped_switch (chr "$" :: rest) =
    if is_special_global_name rest then Bail false
    else escaped_id_tail (chr "$" :: rest) 1 false.
Proof.
  unfold escaped_switch. change (char_at (chr "$" :: rest) 0) with (chr "$").
  change (chr "$" =? 0) with false. change (chr "$" =? chr "$") with true.
  cbv iota. change (drop 1 (chr "$" :: rest)) with rest.
  destruct rest as [| a r]; [reflexivity |].
  change (1 <? length (chr "$" :: a :: r))%nat with true. reflexivity.
Qed.

(** The arm of the at sign, lines 397-402. *)
Lemma switch_at rest :
  escaped_switch (chr "@" :: rest) =
    escaped_id_tail (chr "@" :: rest)
      (match rest with
       | a :: _ => if a =? chr "@" then 2%nat else 1%nat
       | [] => 1%nat
       end) false.
Proof.
  unfold escaped_switch. change (char_at (chr "@" :: rest) 0) with (chr "@").
  change (chr "@" =? 0) with false. change (chr "@" =? chr "$") with false.
  change (chr "@" =? chr "@") with true. cbv iota.
  destruct rest as [| a r]; [reflexivity |].
  change (1 <? length (chr "@" :: a :: r))%nat with true.
  change (char_at (chr "@" :: a :: r) 1) with a. reflexivity.
Qed.

Lemma special_punct_digit c :
  In c special_punct -> isdigit c = true -> c = chr "0".
Proof.
  unfold special_punct. cbn [map app]. intros Hin.
  repeat (destruct Hin as [<- | Hin]; [first [reflexivity | discriminate] |]).
  destruct Hin.
Qed.

(** X10.  [is_special_global_name] accepts these texts and no other:
    one character of its first arm; the minus sign, alone or followed
    by one identifier character; and a run of digits that does not
    begin with 0.  The digit 0 alone is in the first arm, so a longer
    run that begins with 0 is refused. *)
Theorem special_global_names ptr :
  is_special_global_name ptr = true
  <-> (exists c, ptr = [c] /\ In c special_punct)
      \/ ptr = [chr "-"]
      \/ (exists c, ptr = [chr "-"; c] /\ is_identchar c = true)
      \/ (exists c rest, ptr = c :: rest /\ c <> chr "0"
            /\ forallb isdigit (c :: rest) = true).
Proof.
  destruct ptr as [| c r].
  { split; [discriminate |].
    intros [(c & H & _) | [H | [(c & H & _) | (c & r & H & _)]]]; discriminate. }
  unfold is_special_global_name.
  change (length (c :: r) <=? 0)%nat with false. cbv iota zeta.
  change (char_at (c :: r) 0) with c.
  fold special_punct.
  destruct (existsb (Z.eqb c) special_punct) eqn:Hp.
  - apply existsb_exists in Hp as (c' & Hin & Heq). apply Z.eqb_eq in Heq. subst c'.
    assert (Hm : c <> chr "-").
    { intros ->. unfold special_punct in Hin. cbn [map app] in Hin.
      repeat (destruct Hin as [Hin | Hin]; [discriminate |]). destruct Hin. }
    split.
    + intros H. left. exists c. split; [| exact Hin].
      destruct r; [reflexivity | discriminate].
    + intros [(c' & [= -> ->] & _) | [[= ? ?] | [(c' & [= ? ?] & _) | (c' & r' & [= <- <-] & H0 & Hd)]]];
        try reflexivity; try congruence.
      cbn [forallb] in Hd. apply andb_prop in Hd as [Hd _].
      elim H0. now apply special_punct_digit.
  - assert (Hnp : ~ In c special_punct).
    { intros Hin. apply not_true_iff_false in Hp. apply Hp.
      apply existsb_exists. exists c. split; [exact Hin | apply Z.eqb_refl]. }
    destruct (Z.eqb_spec c (chr "-")) as [-> | Hm].
    + split.
      * intros H. right.
        destruct r as [| a [| b t]].
        -- auto.
        -- right. left. exists a. split; [reflexivity |].
           change (char_at [chr "-"; a] 1) with a in H.
           change (1 <? length [chr "-"; a])%nat with true in H.
           destruct (is_identchar a); [reflexivity | discriminate].
        -- exfalso. change (1 <? length (chr "-" :: a :: b :: t))%nat with true in H.
           destruct (true && is_identchar _); discriminate.
      * intros [(c' & [= <- ->] & Hin) | [[= ->] | [(c' & [= ->] & Hic) | (c' & r' & [= <- <-] & H0 & Hd)]]].
        -- contradiction.
        -- reflexivity.
        -- change (char_at [chr "-"; c'] 1) with c'.
           change (1 <? length [chr "-"; c'])%nat with true.
           rewrite Hic. reflexivity.
        -- discriminate.
    + destruct (isdigit c) eqn:Hd; cbn [negb].
      * unfold scan_while. change (drop 1 (c :: r)) with r.
        cbn [length].
        assert (H0 : c <> chr "0").
        { intros ->. apply Hnp. unfold special_punct. cbn [map app].
          repeat first [left; reflexivity | right]. }
        rewrite Nat.eqb_eq.
        split.
        -- intros H. right. right. right. exists c, r.
           split; [reflexivity |]. split; [exact H0 |].
           cbn [forallb]. rewrite Hd. apply span_len_all. lia.
        -- intros [(c' & [= <- ->] & Hin) | [[= ? ?] | [(c' & [= ? ?] & _) | (c' & r' & [= <- <-] & _ & Hall)]]];
             try contradiction; try congruence.
           cbn [forallb] in Hall. apply andb_prop in Hall as [_ Hall].
           apply span_len_all in Hall. lia.
      * split; [discriminate |].
        intros [(c' & [= <- ->] & Hin) | [[= ? ?] | [(c' & [= ? ?] & _) | (c' & r' & [= <- <-] & _ & Hall)]]];
          try contradiction; try congruence.
        cbn [forallb] in Hall. rewrite Hd in Hall. discriminate.
Qed.

(** X11.  A text that begins with a dollar sign is printed as it is
    exactly when its characters are printable and what follows the
    dollar sign is a special global name or an identifier; the dollar
    sign alone is escaped. *)
Theorem escaped_global rest :
  sym_should_be_escaped (chr "$" :: rest) = false
  <-> forallb isprint rest = true
      /\ (is_special_global_name rest = true \/ is_identifier rest = true).
Proof.
  rewrite escaped_eq, switch_dollar.
  change (forallb isprint (chr "$" :: rest)) with (forallb isprint rest).
  rewrite orb_false_iff, negb_false_iff.
  destruct (is_special_global_name rest).
  - split; intros [Hp _]; auto.
  - rewrite (id_tail_spec (chr "$" :: rest) 1 false) by (simpl; lia).
    change (drop 1 (chr "$" :: rest)) with rest.
    rewrite (ident_shape_iff false rest), <- is_identifier_shape.
    split; intros [Hp Hs]; (split; [exact Hp |]); [auto |].
    destruct Hs as [? | ?]; [discriminate | assumption].
Qed.

(** X12.  A text that begins with an at sign is printed as it is
    exactly when its characters are printable and what follows the
    at sign, or the two at signs, is an identifier; a suffix [?], [!]
    or [=] is not accepted there, and the at signs alone are
    escaped. *)
Theorem escaped_ivar rest :
  sym_should_be_escaped (chr "@" :: rest) = false
  <-> forallb isprint rest = true
      /\ (is_identifier rest = true
          \/ exists rest', rest = chr "@" :: rest' /\ is_identifier rest' = true).
Proof.
  rewrite escaped_eq, switch_at.
  change (forallb isprint (chr "@" :: rest)) with (forallb isprint rest).
  rewrite orb_false_iff, negb_false_iff.
  destruct rest as [| a r].
  { split; [intros [_ H]; discriminate |].
    intros [_ [H | (r' & H & _)]]; discriminate. }
  destruct (Z.eqb_spec a (chr "@")) as [-> | Ha].
  - rewrite (id_tail_spec (chr "@" :: chr "@" :: r) 2 false) by (simpl; lia).
    change (drop 2 (chr "@" :: chr "@" :: r)) with r.
    rewrite (ident_shape_iff false r), <- is_identifier_shape.
    split; intros [Hp Hs]; (split; [exact Hp |]).
    + right. exists r. auto.
    + destruct Hs as [Hs | (r' & [= <-] & Hs)]; [discriminate | exact Hs].
  - rewrite (id_tail_spec (chr "@" :: a :: r) 1 false) by (simpl; lia).
    change (drop 1 (chr "@" :: a :: r)) with (a :: r).
    rewrite (ident_shape_iff false (a :: r)), <- is_identifier_shape.
    split; intros [Hp Hs]; (split; [exact Hp |]); [auto |].
    destruct Hs as [Hs | (r' & [= -> _] & _)]; [exact Hs | congruence].
Qed.

(** X13.  A text whose first character has no arm of its own in the
    [switch] is printed as it is exactly when its characters are
    printable and it is an identifier, followed or not by one of [!],
    [?] and [=]; the suffix is accepted only when the first character
    is no capital letter.  So a text that begins with a digit, a space
    or a quote is escaped, and so is a constant name with a suffix. *)
Theorem escaped_identifier c rest :
  ~ In c switch_heads ->
  (sym_should_be_escaped (c :: rest) = false
   <-> forallb isprint (c :: rest) = true
       /\ exists body suffix, rest = body ++ suffix
            /\ is_identifier (c :: body) = true
            /\ (suffix = [] \/ (isupper c = false /\ In suffix method_suffixes))).
Proof.
  intros Hc. rewrite escaped_eq.
  destruct (Z.eq_dec c 0) as [-> | H0].
  { split; [discriminate |]. intros [H _]. discriminate. }
  rewrite (switch_default c rest Hc H0).
  rewrite (id_tail_spec (c :: rest) 0 (negb (isupper c))) by (simpl; lia).
  change (drop 0 (c :: rest)) with (c :: rest).
  rewrite orb_false_iff, negb_false_iff.
  rewrite (ident_shape_iff (negb (isupper c)) (c :: rest)).
  split; intros [Hp Hs]; (split; [exact Hp |]).
  - destruct Hs as (body & suffix & Heq & Hid & Hsuf).
    destruct body as [| c' b']; [discriminate |].
    injection Heq as <- ->. exists b', suffix.
    rewrite negb_true_iff in Hsuf. auto.
  - destruct Hs as (body & suffix & -> & Hid & Hsuf).
    exists (c :: body), suffix. rewrite negb_true_iff. auto.
Qed.

(** X14.  Among the texts that begin with an operator character
    other than the bracket, [sym_should_be_escaped] prints as they are
    the 26 operator names of [bare_operators] and escapes every other
    one, the equal sign alone among them. *)
Theorem escaped_operators c rest :
  In c operator_heads ->
  (sym_should_be_escaped (c :: rest) = false <-> In (c :: rest) bare_operators).
Proof.
  unfold operator_heads, bare_operators. cbn [map].
  intros Hin. simpl in Hin. chr_values.
  repeat (destruct Hin as [<- | Hin]; [| ]); [.. | destruct Hin].
  all: destruct rest as [| a [| b [| d r]]].
  all: unfold sym_should_be_escaped, escaped_switch; chr_values.
  all: cbn; chr_values.
  all: eqb_cases.
  all: cbn; bool_cases; cbn.
  all: (split;
        [first [discriminate | intros _; in_list]
        | first [reflexivity | intros H; exfalso; not_in_list H]]).
Qed.

(** An identifier of printable characters is printed as it is. *)
Lemma identifier_bare c rest :
  forallb isprint (c :: rest) = true -> is_identifier (c :: rest) = true ->
  ~ In c switch_heads ->
  sym_should_be_escaped (c :: rest) = false.
Proof.
  intros Hp Hid Hc. rewrite escaped_eq, Hp. cbn [negb orb].
  assert (H0 : c <> 0).
  { intros ->. discriminate. }
  rewrite (switch_default c rest Hc H0).
  rewrite (id_tail_spec (c :: rest) 0 (negb (isupper c))) by (simpl; lia).
  change (drop 0 (c :: rest)) with (c :: rest).
  apply ident_shape_iff. exists (c :: rest), []. rewrite app_nil_r. auto.
Qed.

(** An instance or class variable name of printable characters is
    printed as it is. *)
Lemma ivar_bare r :
  forallb isprint r = true -> is_identifier r = true ->
  sym_should_be_escaped (chr "@" :: r) = false
  /\ sym_should_be_escaped (chr "@" :: chr "@" :: r) = false.
Proof.
  intros Hp Hid.
  assert (Hs : exists body suffix, r = body ++ suffix
             /\ is_identifier body = true
             /\ (suffix = [] \/ (false = true /\ In suffix method_suffixes))).
  { exists r, []. rewrite app_nil_r. auto. }
  split; rewrite escaped_eq, switch_at.
  - change (forallb isprint (chr "@" :: r)) with (forallb isprint r).
    rewrite Hp. cbn [negb orb].
    destruct r as [| a r']; [discriminate |].
    replace (a =? chr "@") with false.
    2: { symmetry. apply Z.eqb_neq. intros ->. discriminate. }
    rewrite (id_tail_spec (chr "@" :: a :: r') 1 false) by (simpl; lia).
    change (drop 1 (chr "@" :: a :: r')) with (a :: r').
    apply ident_shape_iff, Hs.
  - change (forallb isprint (chr "@" :: chr "@" :: r)) with (forallb isprint r).
    rewrite Hp. cbn [negb orb].
    change (chr "@" =? chr "@") with true. cbv iota.
    rewrite (id_tail_spec (chr "@" :: chr "@" :: r) 2 false) by (simpl; lia).
    change (drop 2 (chr "@" :: chr "@" :: r)) with r.
    apply ident_shape_iff, Hs.
Qed.

(** A text that is printed as it is does not begin with a double
    quote. *)
Lemma bare_not_quoted c rest :
  sym_should_be_escaped (c :: rest) = false -> c <> dquote.
Proof.
  intros H ->. rewrite escaped_eq in H.
  apply orb_false_iff in H as [_ H].
  rewrite switch_default in H; [| | discriminate].
  - rewrite (id_tail_spec (dquote :: rest) 0 (negb (isupper dquote))) in H
      by (simpl; lia).
    discriminate.
  - unfold switch_heads. cbn [map]. intros Hin.
    repeat (destruct Hin as [Hin | Hin]; [discriminate |]). exact Hin.
Qed.

Lemma identchar_not_head c :
  is_identchar c = true -> ~ In c switch_heads.
Proof.
  unfold switch_heads. cbn [map]. intros Hc Hin.
  repeat (destruct Hin as [<- | Hin]; [discriminate |]). exact Hin.
Qed.

Lemma printable_ident_start c :
  isprint c = true -> is_identchar c = true -> isdigit c = false ->
  ident_start c = true.
Proof.
  unfold ident_start, is_identchar, isalnum. intros Hp Hc Hd. rewrite Hd in Hc.
  destruct (isalpha c), (c =? chr "_"); try reflexivity.
  cbn [orb] in *. apply negb_true_iff in Hc.
  unfold isprint, isascii in *.
  apply andb_prop in Hp as [H1 H2]. apply andb_false_iff in Hc.
  apply Z.leb_le in H1, H2.
  destruct Hc as [Hc | Hc]; apply Z.leb_gt in Hc; lia.
Qed.

(** A remainder that passes the scan of [rb_intern_str] is an
    identifier of the escaper, when its characters are printable. *)
Lemma scan_identifier c rest :
  forallb isprint (c :: rest) = true ->
  remainder_is_junk (c :: rest) = false ->
  is_identifier (c :: rest) = true /\ ~ In c switch_heads.
Proof.
  intros Hp Hj. unfold remainder_is_junk in Hj.
  apply orb_false_iff in Hj as [Hall Hd].
  rewrite existsb_negb_forallb in Hall. apply negb_false_iff in Hall.
  cbn [forallb] in Hall, Hp.
  apply andb_prop in Hall as [Hc Hall]. apply andb_prop in Hp as [Hpc _].
  split; [| now apply identchar_not_head].
  cbn [is_identifier]. rewrite Hall, andb_true_r.
  now apply printable_ident_start.
Qed.

End EscaperArms.

Section Printed.

Context {P : SymbolParams} {OK : SymbolParamsOK}.
Variable D : list UChar -> Prop.
Hypothesis U : universe D.

(** The scope of the ID of a name of the attribute branch. *)
Lemma scope_attr_shape st name id st' :
  classifiable D st name -> attr_shape name = true ->
  rb_intern_str st name = Some (id, st') ->
  scope_of id = ID_ATTRSET \/ scope_of id = ID_JUNK.
Proof.
  tag_bounds.
  intros [Hf | (Hr & HD & Hnop)] Hs Hi.
  - destruct (rb_intern_str_total st (rb_str_substr name 0 (length name - 1)))
      as (b & st1 & Hb).
    rewrite (intern_setter st name b st1 Hf Hs Hb) in Hi.
    destruct (negb (is_attrset_id b)); injection Hi as <- _.
    + left. apply scope_of_attrset.
    + right. apply (scope_of_new_id st1 name ID_JUNK). lia.
  - pose proof (intern_scope D U st name Hr HD Hnop) as Hc.
    unfold intern_id in Hc. rewrite Hi in Hc.
    rewrite (classify_setter name Hs) in Hc.
    destruct (classify _) as [t |]; [| discriminate].
    change (Some (scope_of id)
            = Some (if t =? ID_ATTRSET then ID_JUNK else ID_ATTRSET)) in Hc.
    injection Hc as ->. destruct (t =? ID_ATTRSET); auto.
Qed.

(** X15.  The classifier and the escaper agree on identifiers.  A
    name of printable characters whose ID [rb_intern_str] makes Local
    or Constant, or Instance or Class with at least one character
    after the at signs, is printed by [sym_should_be_escaped] as it
    is.  The names are the new ones of any table and, in a table that
    the program reaches, the names of [D] that are no operator
    names. *)
Theorem identifier_prints_bare st name id st' :
  classifiable D st name ->
  rb_intern_str st name = Some (id, st') ->
  forallb isprint name = true ->
  (scope_of id = ID_LOCAL /\ name <> [])
  \/ (scope_of id = ID_CONST /\ name <> [])
  \/ (scope_of id = ID_INSTANCE /\ (1 < length name)%nat)
  \/ (scope_of id = ID_CLASS /\ (2 < length name)%nat) ->
  sym_should_be_escaped name = false.
Proof.
  intros Hcl Hi Hp Hsc.
  assert (Hclash : forall t,
            t = ID_JUNK \/ t = ID_ATTRSET \/ t = ID_GLOBAL ->
            t <> ID_LOCAL /\ t <> ID_CONST /\ t <> ID_INSTANCE /\ t <> ID_CLASS).
  { tag_facts. intros t [-> | [-> | ->]]; repeat split; congruence. }
  assert (Hic : ID_INSTANCE <> ID_LOCAL /\ ID_INSTANCE <> ID_CONST
                /\ ID_INSTANCE <> ID_CLASS).
  { tag_facts. repeat split; congruence. }
  assert (Hno : forall t, t <> ID_LOCAL /\ t <> ID_CONST
                  /\ t <> ID_INSTANCE /\ t <> ID_CLASS ->
            ~ ((t = ID_LOCAL /\ name <> [])
               \/ (t = ID_CONST /\ name <> [])
               \/ (t = ID_INSTANCE /\ (1 < length name)%nat)
               \/ (t = ID_CLASS /\ (2 < length name)%nat))).
  { intros t (H1 & H2 & H3 & H4) [[? _] | [[? _] | [[? _] | [? _]]]]; contradiction. }
  assert (Hshort : forall t, (t = ID_INSTANCE \/ t = ID_CLASS) ->
            (length name <= 1)%nat \/ (t = ID_CLASS /\ (length name <= 2)%nat) ->
            ~ ((t = ID_LOCAL /\ name <> [])
               \/ (t = ID_CONST /\ name <> [])
               \/ (t = ID_INSTANCE /\ (1 < length name)%nat)
               \/ (t = ID_CLASS /\ (2 < length name)%nat))).
  { destruct Hic as (H1 & H2 & H3).
    assert (Hci : ID_CLASS <> ID_LOCAL /\ ID_CLASS <> ID_CONST).
    { tag_facts. split; congruence. }
    destruct Hci as (H4 & H5).
    intros t Ht Hlen [[? _] | [[? _] | [[? Hn] | [? Hn]]]];
      try (destruct Ht; congruence).
    - destruct Hlen as [Hlen | [? Hlen]]; [| congruence].
      exact (Nat.lt_irrefl _ (Nat.lt_le_trans _ _ _ Hn Hlen)).
    - destruct Hlen as [Hlen | [? Hlen]].
      + apply (Nat.lt_irrefl 2). eapply Nat.lt_le_trans; [exact Hn |].
        eapply Nat.le_trans; [exact Hlen | repeat constructor].
      + exact (Nat.lt_irrefl _ (Nat.lt_le_trans _ _ _ Hn Hlen)). }
  destruct (attr_shape name) eqn:Hs.
  { exfalso. apply (Hno (scope_of id)); [| exact Hsc].
    apply Hclash.
    destruct (scope_attr_shape st name id st' Hcl Hs Hi) as [H | H]; auto. }
  pose proof (scope_plain D U st name Hcl Hs) as Hpl.
  unfold intern_id in Hpl. rewrite Hi in Hpl.
  change (Some (scope_of id) = Some (plain_tag name)) in Hpl.
  injection Hpl as Hpl. rewrite Hpl in Hsc. clear Hpl Hi Hcl Hs.
  destruct name as [| c rest].
  { exfalso. destruct Hsc as [[_ H] | [[_ H] | [[_ H] | [_ H]]]];
      try congruence; inversion H. }
  rewrite plain_tag_spec in Hsc. revert Hsc.
  destruct (Z.eqb_spec c (chr "$")) as [-> | Hdollar].
  { intros Hsc. exfalso. apply (Hno ID_GLOBAL); auto. }
  destruct (Z.eqb_spec c (chr "@")) as [-> | Hat].
  - change (forallb isprint (chr "@" :: rest)) with (forallb isprint rest) in Hp.
    destruct rest as [| c2 rest2].
    { intros Hsc. exfalso. apply (Hshort ID_INSTANCE); auto. }
    destruct (Z.eqb_spec c2 (chr "@")) as [-> | Hc2].
    + destruct (remainder_is_junk rest2) eqn:Hj.
      { intros Hsc. exfalso. apply (Hno ID_JUNK); auto. }
      destruct rest2 as [| c3 rest3].
      { intros Hsc. exfalso. apply (Hshort ID_CLASS); auto. }
      intros _.
      change (forallb isprint (chr "@" :: c3 :: rest3))
        with (forallb isprint (c3 :: rest3)) in Hp.
      apply ivar_bare; [exact Hp |].
      apply (scan_identifier c3 rest3 Hp Hj).
    + destruct (remainder_is_junk (c2 :: rest2)) eqn:Hj.
      { intros Hsc. exfalso. apply (Hno ID_JUNK); auto. }
      intros _. apply ivar_bare; [exact Hp |].
      apply (scan_identifier c2 rest2 Hp Hj).
  - destruct (remainder_is_junk (c :: rest)) eqn:Hj.
    { intros Hsc. exfalso. apply (Hno ID_JUNK); auto. }
    intros _.
    destruct (scan_identifier c rest Hp Hj) as [Hid Hh].
    now apply identifier_bare.
Qed.

End Printed.

Section InspectInjective.

Variable rb_str_inspect : list UChar -> list UChar.

(** The string printer answers two texts differently and begins its
    answer with a double quote. *)
Hypothesis inspect_inj :
  forall s1 s2, rb_str_inspect s1 = rb_str_inspect s2 -> s1 = s2.

Hypothesis inspect_quoted :
  forall s, exists r, rb_str_inspect s = dquote :: r.

(** X16.  Two symbols with two texts are printed differently by
    [rsym_inspect], when the string printer answers two texts
    differently and begins its answer with a double quote: no text
    that is printed as it is begins with a double quote. *)
Theorem inspect_injective s1 s2 :
  s1 <> s2 ->
  rsym_inspect rb_str_inspect s1 <> rsym_inspect rb_str_inspect s2.
Proof.
  assert (Hmix : forall a b, sym_should_be_escaped b = false ->
            rb_str_inspect a <> b).
  { intros a b Hb Heq. destruct (inspect_quoted a) as (r & Hr).
    rewrite Hr in Heq. subst b. now apply bare_not_quoted in Hb. }
  intros Hne. unfold rsym_inspect.
  destruct (sym_should_be_escaped s1) eqn:E1, (sym_should_be_escaped s2) eqn:E2;
    intros H; apply app_inv_head in H.
  - now apply Hne, inspect_inj.
  - now apply Hmix in H.
  - symmetry in H. now apply Hmix in H.
  - exact (Hne H).
Qed.

End InspectInjective.

(** ** The further statements on concrete tables and texts *)


Lemma sample_foo_known :
  @rb_intern_str ops_params sample_table (uchars "foo") = Some (8008, sample_table).
Proof. vm_compute. reflexivity. Qed.

Lemma sample_foo_record :
  id_str sample_table !! 8008
  = Some {| rsym_str := uchars "foo"; rsym_id := 8008 |}.
Proof. vm_compute. reflexivity. Qed.

Lemma sample_foo_setter_fresh :
  @fresh ops_params sample_table (uchars "foo" ++ [chr "="]).
Proof. vm_compute. reflexivity. Qed.

(** [intern_new_name_resolves] on the name [foo], new in the table of
    [Init_PreSymbol] without operators. *)
Lemma intern_new_name_resolves_witness :
  @fresh plain_params (@Init_PreSymbol plain_params) (uchars "foo")
  /\ exists id st' sym,
       @rb_name2sym plain_params (@Init_PreSymbol plain_params) (uchars "foo")
       = Some (Some sym, st')
       /\ rb_sym_to_s sym = uchars "foo" /\ rb_sym2id sym = id.
Proof.
  assert (Hf : @fresh plain_params (@Init_PreSymbol plain_params) (uchars "foo"))
    by (vm_compute; reflexivity).
  split; [exact Hf |].
  destruct (@intern_new_name_resolves plain_params _ _ Hf)
    as (id & st' & sym & _ & H & _ & Hs & Hi).
  exists id, st', sym. auto.
Defined.




(** [symbol_stable] on the record of [foo]. *)
Lemma symbol_stable_witness :
  @reachable ops_params in_sample sample_table
  /\ id_str sample_table !! 8008
     = Some {| rsym_str := uchars "foo"; rsym_id := 8008 |}
  /\ @rb_id2str ops_params sample_table 8008
     = Some (Some {| rsym_str := uchars "foo"; rsym_id := 8008 |}, sample_table).
Proof.
  split; [exact sample_table_reachable |]. split; [exact sample_foo_record |].
  destruct (@symbol_stable ops_params ops_params_ok in_sample sample_universe
              sample_table 8008 _ sample_table
              sample_table_reachable sample_foo_record (rtc_refl _ _))
    as (_ & H & _).
  exact H.
Defined.

(** [derive_agrees_with_intern] on the record of [foo]: the setter
    [foo=] through [rb_intern_str] and through [rb_id2str]. *)
Lemma derive_agrees_with_intern_witness :
  @reachable ops_params in_sample sample_table
  /\ @tLAST_TOKEN ops_params < 8008
  /\ @scope_of ops_params 8008 = @ID_LOCAL ops_params
  /\ in_sample (uchars "foo" ++ [chr "="])
  /\ @fresh ops_params sample_table (uchars "foo" ++ [chr "="])
  /\ exists st',
       @rb_intern_str ops_params sample_table (uchars "foo" ++ [chr "="])
       = Some (@rb_id_attrset ops_params 8008, st')
       /\ @rb_id2str ops_params sample_table (@rb_id_attrset ops_params 8008)
          = Some (Some {| rsym_str := uchars "foo" ++ [chr "="];
                          rsym_id := @rb_id_attrset ops_params 8008 |}, st').
Proof.
  assert (Hlt : @tLAST_TOKEN ops_params < 8008) by reflexivity.
  assert (Hsc : @scope_of ops_params 8008 = @ID_LOCAL ops_params) by reflexivity.
  assert (Hne : uchars "foo" <> []) by discriminate.
  split; [exact sample_table_reachable |]. split; [exact Hlt |].
  split; [exact Hsc |]. split; [exact in_sample_foo_setter |].
  split; [exact sample_foo_setter_fresh |].
  destruct (@derive_agrees_with_intern ops_params ops_params_ok in_sample
              sample_universe sample_table 8008 (uchars "foo")
              sample_table_reachable sample_foo_record Hlt (or_introl Hsc) Hne
              in_sample_foo_setter sample_foo_setter_fresh)
    as (_ & st' & H).
  exists st'. exact H.
Defined.

(** [equal_signs_alternate] on the name [foo=], with one equal
    sign. *)
Lemma equal_signs_alternate_witness :
  chr "f" <> chr "$" /\ chr "f" <> chr "@"
  /\ attr_shape (uchars "foo") = false
  /\ @reachable ops_params in_sample sample_table
  /\ in_sample (uchars "foo" ++ [chr "="])
  /\ (forall t, ~ In (t, uchars "foo" ++ [chr "="]) (@rb_op_tbl ops_params))
  /\ @scope_of ops_params <$> @intern_id ops_params sample_table (uchars "foo=")
     = Some (@ID_ATTRSET ops_params).
Proof.
  assert (H1 : chr "f" <> chr "$") by discriminate.
  assert (H2 : chr "f" <> chr "@") by discriminate.
  assert (Hs : attr_shape (uchars "foo") = false) by reflexivity.
  assert (Hnop : forall t, ~ In (t, uchars "foo" ++ [chr "="]) (@rb_op_tbl ops_params)).
  { intros t Hin. vm_compute in Hin.
    repeat (destruct Hin as [Hin | Hin]; [discriminate Hin |]). exact Hin. }
  split; [exact H1 |]. split; [exact H2 |]. split; [exact Hs |].
  split; [exact sample_table_reachable |]. split; [exact in_sample_foo_setter |].
  split; [exact Hnop |].
  exact (@equal_signs_alternate ops_params ops_params_ok in_sample sample_universe
           sample_table (chr "f") (uchars "oo") 0 H1 H2 Hs
           sample_table_reachable in_sample_foo_setter Hnop).
Defined.


(** [all_symbols_distinct] on the table where [foo] was interned. *)
Lemma all_symbols_distinct_witness :
  @reachable ops_params in_sample sample_table
  /\ NoDup (rb_sym_to_s <$> rsym_all_symbols sample_table)
  /\ uchars "foo" ∈ rb_sym_to_s <$> rsym_all_symbols sample_table.
Proof.
  split; [exact sample_table_reachable |].
  destruct (@all_symbols_distinct ops_params ops_params_ok in_sample
              sample_universe sample_table sample_table_reachable)
    as (Hnd & _ & Hin & _).
  split; [exact Hnd |].
  apply (Hin (uchars "foo") in_sample_foo). vm_compute. discriminate.
Defined.

(** [all_symbols_grow] on the name [foo], new in the table of
    [Init_PreSymbol]. *)
Lemma all_symbols_grow_witness :
  @reachable ops_params in_sample (@Init_PreSymbol ops_params)
  /\ in_sample (uchars "foo")
  /\ @rb_intern_str ops_params (@Init_PreSymbol ops_params) (uchars "foo")
     = Some (8008, sample_table)
  /\ rsym_all_symbols sample_table
     ≡ₚ {| rsym_str := uchars "foo"; rsym_id := 8008 |}
        :: rsym_all_symbols (@Init_PreSymbol ops_params).
Proof.
  split; [apply rtc_refl |]. split; [exact in_sample_foo |].
  split; [exact sample_table_eq |].
  destruct (@all_symbols_grow ops_params ops_params_ok in_sample sample_universe
              (@Init_PreSymbol ops_params) (uchars "foo") 8008 sample_table
              (rtc_refl _ _) in_sample_foo sample_table_eq)
    as (_ & H).
  apply H; [vm_compute |]; reflexivity.
Defined.

(** [escaped_identifier] on the text [foo?]. *)
Lemma escaped_identifier_witness :
  ~ In (chr "f") switch_heads
  /\ sym_should_be_escaped (uchars "foo?") = false.
Proof.
  assert (Hc : ~ In (chr "f") switch_heads).
  { unfold switch_heads. cbn [map]. intros H.
    repeat (destruct H as [H | H]; [discriminate H |]). exact H. }
  split; [exact Hc |].
  apply (escaped_identifier (chr "f") (uchars "oo?") Hc).
  split; [reflexivity |].
  exists (uchars "oo"), (uchars "?").
  split; [reflexivity |]. split; [reflexivity |].
  right. split; [reflexivity |]. right. left. reflexivity.
Defined.

(** [escaped_operators] on the text [<=>]. *)
Lemma escaped_operators_witness :
  In (chr "<") operator_heads
  /\ sym_should_be_escaped (uchars "<=>") = false.
Proof.
  assert (Hc : In (chr "<") operator_heads) by (left; reflexivity).
  split; [exact Hc |].
  apply (escaped_operators (chr "<") (uchars "=>") Hc).
  do 3 right. left. reflexivity.
Defined.

(** [identifier_prints_bare] on the name [foo] in the table where it
    was interned. *)
Lemma identifier_prints_bare_witness :
  @classifiable ops_params in_sample sample_table (uchars "foo")
  /\ @rb_intern_str ops_params sample_table (uchars "foo")
     = Some (8008, sample_table)
  /\ forallb isprint (uchars "foo") = true
  /\ @scope_of ops_params 8008 = @ID_LOCAL ops_params
  /\ sym_should_be_escaped (uchars "foo") = false.
Proof.
  assert (Hcl : @classifiable ops_params in_sample sample_table (uchars "foo")).
  { right. split; [exact sample_table_reachable |].
    split; [exact in_sample_foo |].
    apply sample_not_operator. left. reflexivity. }
  assert (Hsc : @scope_of ops_params 8008 = @ID_LOCAL ops_params) by reflexivity.
  assert (Hne : uchars "foo" <> []) by discriminate.
  split; [exact Hcl |]. split; [exact sample_foo_known |].
  split; [reflexivity |]. split; [exact Hsc |].
  exact (@identifier_prints_bare ops_params ops_params_ok in_sample
           sample_universe sample_table (uchars "foo") 8008 sample_table
           Hcl sample_foo_known eq_refl (or_introl (conj Hsc Hne))).
Defined.

(** [inspect_injective] on the printer [quote_text], for the text
    [foo] and the text [foo] between double quotes. *)
Lemma inspect_injective_witness :
  (forall s1 s2, quote_text s1 = quote_text s2 -> s1 = s2)
  /\ (forall s, exists r, quote_text s = dquote :: r)
  /\ uchars "foo" <> quote_text (uchars "foo")
  /\ rsym_inspect quote_text (uchars "foo")
     <> rsym_inspect quote_text (quote_text (uchars "foo")).
Proof.
  assert (Hinj : forall s1 s2, quote_text s1 = quote_text s2 -> s1 = s2).
  { unfold quote_text. intros s1 s2 [= H]. now apply app_inv_tail in H. }
  assert (Hq : forall s, exists r, quote_text s = dquote :: r).
  { intros s. eexists. reflexivity. }
  assert (Hne : uchars "foo" <> quote_text (uchars "foo")) by discriminate.
  split; [exact Hinj |]. split; [exact Hq |]. split; [exact Hne |].
  exact (inspect_injective quote_text Hinj Hq _ _ Hne).
Defined.
